(** * desiutil.bitmask: named mask bits, verified against bitmask.py

    A shallow embedding of [desiutil/bitmask.py] (the classes [_MaskBit] and
    [BitMask]) and the properties of its lookup, encode and decode
    operations.

    Conventions of the embedding.
    - Python [int] is [Z].  A bit number taken from a definition table is a
      non-negative integer (an [N]): [2**bitnum] is an [int] only then.
    - A Python [dict] with string and integer keys ([BitMask._bits]) is a
      [gmap key _MaskBit]; the only place where the order of its keys shows
      is [sorted(...)], which does not depend on it.
    - A [dict] of extra attributes is an association list in insertion
      order, as [extra.items()] enumerates it.
    - Exceptions are the [Raise] results of a small error monad. *)

From Stdlib Require Import ZArith String Ascii List DecimalString Lia.
From stdpp Require Import gmap strings list fin_maps sorting.

Open Scope Z_scope.

(** ** Python values and exceptions *)

(** Keys of [BitMask._bits]: bit names ([str]) and bit numbers ([int]). *)
Inductive key : Type :=
  | KStr (s : string)
  | KInt (n : Z).

#[global] Instance key_eq_dec : EqDecision key.
Proof. solve_decision. Defined.

#[global] Instance key_countable : Countable key :=
  inj_countable'
    (λ k, match k with KStr s => inl s | KInt n => inr n end)
    (λ x, match x with inl s => KStr s | inr n => KInt n end)
    (λ k, match k with KStr _ => eq_refl | KInt _ => eq_refl end).

(** What a loaded definition table can hold in the optional fourth place of
    an entry, and as the value of an extra attribute. *)
#[warnings="-register-all"]
Inductive pyvalue : Type :=
  | PyNone
  | PyBool (b : bool)
  | PyInt (z : Z)
  | PyStr (s : string)
  | PyList (l : list pyvalue)
  | PyDict (d : list (string * pyvalue)).

Inductive exn : Type :=
  | ValueError (msg : string)
  | AttributeError (msg : string)
  | KeyError (k : key).

Inductive result (A : Type) : Type :=
  | Ok (a : A)
  | Raise (e : exn).
Arguments Ok {A} a.
Arguments Raise {A} e.

Definition bind {A B : Type} (m : result A) (f : A → result B) : result B :=
  match m with
  | Ok a => f a
  | Raise e => Raise e
  end.

Notation "'let*' x ':=' m 'in' f" := (bind m (λ x, f))
  (at level 10, x name, m at level 100, f at level 200).

Definition is_Ok {A : Type} (r : result A) : bool :=
  match r with Ok _ => true | Raise _ => false end.

(** [d[k]] on a [gmap]-modelled dictionary. *)
Definition getitem {V : Type} (d : gmap key V) (k : key) : result V :=
  match d !! k with
  | Some v => Ok v
  | None => Raise (KeyError k)
  end.

(** ** Strings *)

Definition dquote : string := String "034"%char EmptyString.
Definition newline : string := String "010"%char EmptyString.
Definition bar : ascii := "|"%char.

(** [str(n)] for an [int]. *)
Definition str_int (n : Z) : string := NilZero.string_of_int (Z.to_int n).

Fixpoint spaces (n : nat) : string :=
  match n with
  | O => EmptyString
  | S n' => String " "%char (spaces n')
  end.

(** ['{:16s}'.format(s)]: left-justified in a field of at least [w]. *)
Definition ljust (w : nat) (s : string) : string :=
  (s +:+ spaces (w - String.length s))%string.

(** ['{:2d}'.format(n)]: right-justified in a field of at least [w]. *)
Definition rjust (w : nat) (s : string) : string :=
  (spaces (w - String.length s) +:+ s)%string.

(** [s.split(sep)] for a one-character separator. *)
Fixpoint split (sep : ascii) (s : string) : list string :=
  match s with
  | EmptyString => [EmptyString]
  | String c rest =>
      if Ascii.eqb c sep then EmptyString :: split sep rest
      else match split sep rest with
           | hd :: tl => String c hd :: tl
           | [] => [String c EmptyString]
           end
  end.

(** ['\n'.join(lines)]. *)
Fixpoint join (sep : string) (lines : list string) : string :=
  match lines with
  | [] => EmptyString
  | [l] => l
  | l :: rest => (l +:+ sep +:+ join sep rest)%string
  end.

(** [sep in s]. *)
Fixpoint contains (sep : ascii) (s : string) : bool :=
  match s with
  | EmptyString => false
  | String c rest => Ascii.eqb c sep || contains sep rest
  end.

(** ** The classes *)

(** Entries of a definition table, [x] in [for x in bitdefs[name]]:
    [x[0:3]] are the name, the bit number and the comment; [x_rest] is
    [x[3:]], so that [len(x) == 4] is [length (x_rest x) = 1]. *)
Record entry : Type := Entry {
  x_name : string;
  x_bitnum : N;
  x_comment : string;
  x_rest : list pyvalue
}.

(** class [_MaskBit(int)]: the [int] value and the instance attributes. *)
Record _MaskBit : Type := MaskBit {
  value : Z;
  name : string;
  bitnum : Z;
  mask : Z;
  comment : string;
  _extra : list (string * pyvalue);
  extra_attrs : list (string * pyvalue)
}.

Record BitMask : Type := {
  _bits : gmap key _MaskBit;
  _name : string
}.

(** The four attributes a definition is documented to carry. *)
Definition reserved_attrs : list string :=
  ["name"; "bitnum"; "mask"; "comment"]%string.

(** The attributes [_MaskBit.__new__] has set before its loop: the four
    above and [_extra]. *)
Definition own_attrs : list string := reserved_attrs ++ ["_extra"%string].

Section Python.

(** The attributes every instance of a subclass of [int] has: those of
    Python's [int] type and of the class itself.  They belong to the Python
    run time, not to this repository. *)
Variable int_hasattr : string → bool.

(** [str(d)] for a [dict], Python's built-in rendering. *)
Variable py_str : pyvalue → string.

(** [hasattr(self, key)] inside [_MaskBit.__new__], where [set_keys] are the
    keys the loop has put into [self.__dict__] so far. *)
Definition hasattr (set_keys : list string) (k : string) : bool :=
  bool_decide (k ∈ own_attrs) || bool_decide (k ∈ set_keys) || int_hasattr k.

(** The loop of [_MaskBit.__new__] over [extra.items()]. *)
Fixpoint set_extras (bitname : string) (items : list (string * pyvalue))
    (dict_ : list (string * pyvalue)) : result (list (string * pyvalue)) :=
  match items with
  | [] => Ok dict_
  | (k, v) :: rest =>
      if hasattr (dict_.*1) k then
        Raise (AttributeError
          ("Bit " +:+ bitname +:+ " extra key '" +:+ k +:+
           "' is already in use by int objects.")%string)
      else set_extras bitname rest (dict_ ++ [(k, v)])
  end.

Definition _MaskBit_new (bitname : string) (bitnum : N) (comment : string)
    (extra : list (string * pyvalue)) : result _MaskBit :=
  let* d := set_extras bitname extra [] in
  Ok {| value := 2 ^ Z.of_N bitnum;
        name := bitname;
        bitnum := Z.of_N bitnum;
        mask := 2 ^ Z.of_N bitnum;
        comment := comment;
        _extra := extra;
        extra_attrs := d |}.

(** The body of the loop of [BitMask.__init__] for one entry [x]. *)
Definition init_step (x : entry) (bits : gmap key _MaskBit)
    : result (gmap key _MaskBit) :=
  let* extra :=
    match x_rest x with
    | [x3] =>
        match x3 with
        | PyDict d => Ok d
        | _ => Raise (ValueError
                 (x_name x +:+ " extra values should be a dict")%string)
        end
    | _ => Ok []
    end in
  let* bit := _MaskBit_new (x_name x) (x_bitnum x) (x_comment x) extra in
  let bits1 := <[KStr (x_name x) := bit]> bits in
  let* same := getitem bits1 (KStr (x_name x)) in
  Ok (<[KInt (Z.of_N (x_bitnum x)) := same]> bits1).

Fixpoint init_loop (xs : list entry) (bits : gmap key _MaskBit)
    : result (gmap key _MaskBit) :=
  match xs with
  | [] => Ok bits
  | x :: xs' => let* bits' := init_step x bits in init_loop xs' bits'
  end.

(** [BitMask.__init__(self, name, bitdefs)]. *)
Definition BitMask_init (name : string) (bitdefs : gmap string (list entry))
    : result BitMask :=
  let* xs := match bitdefs !! name with
             | Some xs => Ok xs
             | None => Raise (KeyError (KStr name))
             end in
  let* bits := init_loop xs ∅ in
  Ok {| _bits := bits; _name := name |}.

(** [BitMask.__getitem__]. *)
Definition BitMask_getitem (self : BitMask) (bitname : key) : result _MaskBit :=
  getitem (_bits self) bitname.

Definition BitMask_bitnum (self : BitMask) (bitname : key) : result Z :=
  let* b := getitem (_bits self) bitname in Ok (bitnum b).

Definition BitMask_bitname (self : BitMask) (bitnum : key) : result string :=
  let* b := getitem (_bits self) bitnum in Ok (name b).

Definition BitMask_comment (self : BitMask) (bitname_or_num : key)
    : result string :=
  let* b := getitem (_bits self) bitname_or_num in Ok (comment b).

(** The loop of [BitMask.mask] over [name_or_num.split('|')]. *)
Fixpoint mask_loop (bits : gmap key _MaskBit) (names : list string) (acc : Z)
    : result Z :=
  match names with
  | [] => Ok acc
  | n :: rest =>
      let* b := getitem bits (KStr n) in
      mask_loop bits rest (Z.lor acc (mask b))
  end.

(** [BitMask.mask]: [isinstance(name_or_num, int)] is the [KInt] case. *)
Definition BitMask_mask (self : BitMask) (name_or_num : key) : result Z :=
  match name_or_num with
  | KInt n => let* b := getitem (_bits self) (KInt n) in Ok (mask b)
  | KStr s => mask_loop (_bits self) (split bar s) 0
  end.

(** [[x for x in self._bits.keys() if isinstance(x, int)]]. *)
Definition bitnums (bits : gmap key _MaskBit) : list Z :=
  omap (λ kv, match kv.1 with KInt n => Some n | KStr _ => None end)
       (map_to_list bits).

(** [sorted(bitnums)]. *)
Definition sorted (l : list Z) : list Z := merge_sort Z.le l.

(** The [while bitnum**2 <= mask] loop of [BitMask.names]; [None] when
    [fuel] iterations do not reach the end of the loop. *)
Fixpoint names_loop (fuel : nat) (bits : gmap key _MaskBit) (mask bitnum : Z)
    (names : list string) : option (list string) :=
  match fuel with
  | O => None
  | S fuel' =>
      if bitnum ^ 2 <=? mask then
        let names' :=
          if negb (Z.land (2 ^ bitnum) mask =? 0) then
            match bits !! KInt bitnum with
            | Some b => names ++ [name b]
            | None => names ++ [("UNKNOWN" +:+ str_int bitnum)%string]
            end
          else names in
        names_loop fuel' bits mask (bitnum + 1) names'
      else Some names
  end.

(** [BitMask.names(mask)], [mask=None] being [None].  The result is [None]
    when the method yields no list (a loop that does not end, a failing
    lookup); both are shown not to happen. *)
Definition BitMask_names (self : BitMask) (mask : option Z)
    : option (list string) :=
  match mask with
  | None =>
      mapM (λ n, name <$> _bits self !! KInt n) (sorted (bitnums (_bits self)))
  | Some m =>
      names_loop (Z.to_nat (Z.sqrt m) + 2) (_bits self) m 0 []
  end.

(** [BitMask.__getattr__]. *)
Definition BitMask_getattr (self : BitMask) (name : string) : result _MaskBit :=
  match _bits self !! KStr name with
  | Some b => Ok b
  | None => Raise (AttributeError ("Unknown mask bit name " +:+ name)%string)
  end.

(** One line of [BitMask.__repr__]. *)
Definition repr_line (bit : _MaskBit) : string :=
  let line :=
    ("  - [" +:+ ljust 16 (name bit +:+ ",") +:+ " " +:+
     rjust 2 (str_int (bitnum bit)) +:+ ", " +:+
     dquote +:+ comment bit +:+ dquote)%string in
  if (0 <? length (_extra bit))%nat
  then (line +:+ ", " +:+ py_str (PyDict (_extra bit)) +:+ "]")%string
  else (line +:+ "]")%string.

(** [BitMask.__repr__]. *)
Definition BitMask_repr (self : BitMask) : option string :=
  lines ← mapM (λ n, repr_line <$> _bits self !! KInt n)
               (sorted (bitnums (_bits self)));
  Some (join newline ((_name self +:+ ":")%string :: lines)).

End Python.

(** ** What the specification says, in its own words *)

(** The entry of [names(mask)] for a set bit at position [k]: the name
    registered at [k], or the synthetic label [UNKNOWN<k>]. *)
Definition label (bits : gmap key _MaskBit) (k : Z) : string :=
  match bits !! KInt k with
  | Some b => name b
  | None => ("UNKNOWN" +:+ str_int k)%string
  end.

(** The positions of the bits set in a non-negative [m], ascending: the
    positions [k] with [2^k <= m] are [0 .. log2 m]. *)
Definition set_positions (m : Z) : list Z :=
  filter (λ k, Z.testbit m k = true) (seqZ 0 (Z.log2 m + 1)).

(** Decode correctness as the specification states it. *)
Definition names_in_mask_spec (self : BitMask) (m : Z) : list string :=
  label (_bits self) <$> set_positions m.

(** The two construction-time errors the specification calls
    [ValidationError]. *)
Definition is_validation_error (e : exn) : bool :=
  match e with
  | ValueError _ | AttributeError _ => true
  | KeyError _ => false
  end.

(** [n] is a registered name of [self]. *)
Definition registered (self : BitMask) (n : string) : Prop :=
  is_Some (_bits self !! KStr n).

(** Equivalence of registries in the serialization round-trip law: the same
    names and, for each, the same mask, comment and extra attributes. *)
Definition same_registry (R R' : BitMask) : Prop :=
  (∀ n, registered R n ↔ registered R' n) ∧
  (∀ n b b', _bits R !! KStr n = Some b → _bits R' !! KStr n = Some b' →
     mask b = mask b' ∧ comment b = comment b' ∧ _extra b = _extra b').

(** The round-trip law for a loader [parse] of definition tables ([None]
    when it rejects the text): every registry is reproduced from its own
    [repr]. *)
Definition roundtrip_law (int_hasattr : string → bool)
    (py_str : pyvalue → string)
    (parse : string → option (gmap string (list entry))) : Prop :=
  ∀ nm bitdefs R,
    BitMask_init int_hasattr nm bitdefs = Ok R →
    ∃ text bitdefs' R',
      BitMask_repr py_str R = Some text ∧
      parse text = Some bitdefs' ∧
      BitMask_init int_hasattr nm bitdefs' = Ok R' ∧
      same_registry R R'.

(** ** Invariants of the table *)

(** A name leads to a definition of that name whose bit number is a key as
    well; a number leads to a definition of that number; every definition
    has [mask = 2**bitnum]. *)
Definition wf_bits (bits : gmap key _MaskBit) : Prop :=
  (∀ s b, bits !! KStr s = Some b →
     name b = s ∧ is_Some (bits !! KInt (bitnum b))) ∧
  (∀ n b, bits !! KInt n = Some b → bitnum b = n) ∧
  (∀ k b, bits !! k = Some b → mask b = 2 ^ bitnum b ∧ 0 ≤ bitnum b).

(** The definition found under a name is the one found under its number. *)
Definition linked (bits : gmap key _MaskBit) : Prop :=
  ∀ s b, bits !! KStr s = Some b → bits !! KInt (bitnum b) = Some b.

(** ** The remaining methods *)

(** One digit of ['{:X}'.format(n)]. *)
Definition hex_digit (d : Z) : string :=
  match d with
  | 0 => "0" | 1 => "1" | 2 => "2" | 3 => "3" | 4 => "4" | 5 => "5"
  | 6 => "6" | 7 => "7" | 8 => "8" | 9 => "9" | 10 => "A" | 11 => "B"
  | 12 => "C" | 13 => "D" | 14 => "E" | 15 => "F" | _ => EmptyString
  end%string.

(** The digits of a non-negative [n] in base 16, most significant first;
    [fuel] bounds their number. *)
Fixpoint hex_loop (fuel : nat) (n : Z) : string :=
  match fuel with
  | O => EmptyString
  | S fuel' =>
      if n <? 16 then hex_digit n
      else (hex_loop fuel' (n / 16) +:+ hex_digit (n mod 16))%string
  end.

(** ['{:X}'.format(n)]: upper-case hexadecimal, a minus sign before the
    digits of a negative number.  A number has at most [log2 n + 1]
    digits. *)
Definition format_X (n : Z) : string :=
  if n <? 0
  then ("-" +:+ hex_loop (S (Z.to_nat (Z.log2 (- n)))) (- n))%string
  else hex_loop (S (Z.to_nat (Z.log2 n))) n.

(** [_MaskBit.__str__]. *)
Definition _MaskBit_str (self : _MaskBit) : string :=
  (ljust 16 (name self) +:+ " bit " +:+ str_int (bitnum self) +:+
   " mask 0x" +:+ format_X (mask self) +:+ " - " +:+ comment self)%string.

(** [d[k]] on a dictionary of extra attributes, [None] for a missing
    key. *)
Fixpoint dict_get (k : string) (d : list (string * pyvalue))
    : option pyvalue :=
  match d with
  | [] => None
  | (k', v) :: rest => if String.eqb k' k then Some v else dict_get k rest
  end.

(** [bit.key] for a key that the loop of [_MaskBit.__new__] has put into
    [self.__dict__]. *)
Definition _MaskBit_extra_attr (self : _MaskBit) (k : string)
    : option pyvalue :=
  dict_get k (extra_attrs self).

(** ** What a table declares *)

(** The mapping of extra attributes of an entry: its fourth element when it
    has four, the empty mapping otherwise. *)
Definition entry_extra (x : entry) : list (string * pyvalue) :=
  match x_rest x with
  | [PyDict d] => d
  | _ => []
  end.

(** The definition an accepted entry stands for. *)
Definition entry_bit (x : entry) : _MaskBit :=
  {| value := 2 ^ Z.of_N (x_bitnum x);
     name := x_name x;
     bitnum := Z.of_N (x_bitnum x);
     mask := 2 ^ Z.of_N (x_bitnum x);
     comment := x_comment x;
     _extra := entry_extra x;
     extra_attrs := entry_extra x |}.

(** The entries construction accepts: one of four elements has a mapping
    as its fourth element, whose keys are pairwise distinct (as the keys
    of a [dict] are) and are not yet attributes of the definition. *)
Definition entry_accepted (int_hasattr : string → bool) (x : entry) : Prop :=
  ∀ v, x_rest x = [v] →
    ∃ d, v = PyDict d ∧ NoDup d.*1 ∧
         ∀ k, k ∈ d.*1 → hasattr int_hasattr [] k = false.

(** ** Entries as the loader hands them over *)

(** An element of [bitdefs[name]] before [__init__] unpacks it: a list of
    fewer than three elements, or the three elements name, bit number and
    comment followed by the rest (an [entry]). *)
Inductive raw_entry : Type :=
  | Short0
  | Short1 (x0 : pyvalue)
  | Short2 (x0 x1 : pyvalue)
  | Full (x : entry).

(** [len(x[0:3])] for an entry of fewer than three elements, 3 otherwise. *)
Definition slice_length (x : raw_entry) : Z :=
  match x with
  | Short0 => 0
  | Short1 _ => 1
  | Short2 _ _ => 2
  | Full _ => 3
  end.

(** [bitname, bitnum, comment = x[0:3]]: [ValueError] when the slice holds
    fewer than three values. *)
Definition unpack (x : raw_entry) : result entry :=
  match x with
  | Full e => Ok e
  | _ => Raise (ValueError
           ("not enough values to unpack (expected 3, got " +:+
            str_int (slice_length x) +:+ ")")%string)
  end.

(** The body of the loop of [BitMask.__init__], from the unpacking on. *)
Definition init_step_raw (int_hasattr : string → bool) (x : raw_entry)
    (bits : gmap key _MaskBit) : result (gmap key _MaskBit) :=
  let* e := unpack x in init_step int_hasattr e bits.

Fixpoint init_loop_raw (int_hasattr : string → bool) (xs : list raw_entry)
    (bits : gmap key _MaskBit) : result (gmap key _MaskBit) :=
  match xs with
  | [] => Ok bits
  | x :: xs' =>
      let* bits' := init_step_raw int_hasattr x bits in
      init_loop_raw int_hasattr xs' bits'
  end.

(** [BitMask.__init__(self, name, bitdefs)] on a table of raw entries. *)
Definition BitMask_init_raw (int_hasattr : string → bool) (name : string)
    (bitdefs : gmap string (list raw_entry)) : result BitMask :=
  let* xs := match bitdefs !! name with
             | Some xs => Ok xs
             | None => Raise (KeyError (KStr name))
             end in
  let* bits := init_loop_raw int_hasattr xs ∅ in
  Ok {| _bits := bits; _name := name |}.


(** A table with an entry of two elements. *)
Definition short_entry_def : list raw_entry :=
  [ Full (Entry "BAD" 0 "bad" []); Short2 (PyStr "HOT") (PyInt 1) ]%string.

(** The definition found under a number is the one found under its name. *)
Definition linked_back (bits : gmap key _MaskBit) : Prop :=
  ∀ k b, bits !! KInt k = Some b → bits !! KStr (name b) = Some b.

(** [n] times the digit 0. *)
Fixpoint zeros (n : nat) : string :=
  match n with
  | O => EmptyString
  | S n' => String "0"%char (zeros n')
  end.

(** The bitwise OR of the powers of two at the positions [ks]. *)
Definition or_pows (ks : list Z) : Z :=
  foldr (λ k acc, Z.lor (2 ^ k) acc) 0 ks.

(** ** The registry of the test suite and other concrete inputs *)

(** Attributes of [int] objects named in the tests and the documentation
    of Python. *)
Definition int_attrs (k : string) : bool :=
  bool_decide (k ∈ ["real"; "imag"; "numerator"; "denominator";
                    "bit_length"; "conjugate"; "to_bytes";
                    "from_bytes"]%string).

(** [str] of values whose strings need no escaping. *)
Fixpoint py_repr (v : pyvalue) : string :=
  match v with
  | PyNone => "None"
  | PyBool b => if b then "True" else "False"
  | PyInt z => str_int z
  | PyStr s => "'" +:+ s +:+ "'"
  | PyList l => "[" +:+ join ", " (map py_repr l) +:+ "]"
  | PyDict d =>
      "{" +:+ join ", "
        (map (λ kv, let '(k, x) := kv in "'" +:+ k +:+ "': " +:+ py_repr x) d)
      +:+ "}"
  end%string.

Definition table (xs : list entry) : gmap string (list entry) :=
  {[ "ccdmask"%string := xs ]}.

Definition ccdmask_entries : list entry :=
  [ Entry "BAD" 0 "Pre-determined bad pixel (any reason)" [];
    Entry "HOT" 1 "Hot pixel" [PyDict [("blat", PyStr "foo")]];
    Entry "DEAD" 2 "Dead pixel" [];
    Entry "SATURATED" 3 "Saturated pixel from object" [];
    Entry "COSMIC" 4 "Cosmic ray" [] ]%string.

Definition empty_mask : BitMask := {| _bits := ∅; _name := EmptyString |}.

(** The registry built from a table, [empty_mask] when construction
    raises. *)
Definition build (xs : list entry) : BitMask :=
  match BitMask_init int_attrs "ccdmask" (table xs) with
  | Ok R => R
  | Raise _ => empty_mask
  end.

Definition ccdmask : BitMask := build ccdmask_entries.

(** [_baddef1] of the tests: an extra that is not a dict. *)
Definition baddef1 : list entry :=
  [ Entry "BAD" 0 "Pre-determined bad pixel (any reason)" [];
    Entry "HOT" 1 "Hot pixel" [PyInt 1] ]%string.

(** An extra key that is a reserved attribute, and one that is an
    attribute of [int]. *)
Definition reserved_key_def : list entry :=
  [ Entry "BAD" 0 "bad" [];
    Entry "HOT" 1 "Hot pixel" [PyDict [("mask", PyInt 7)]] ]%string.

Definition int_key_def : list entry :=
  [ Entry "BAD" 0 "comment" [PyDict [("real", PyStr "foo")]] ]%string.

(** Two names at one bit position. *)
Definition shared_position_def : list entry :=
  [ Entry "A" 0 "first" []; Entry "B" 0 "second" [] ]%string.

(** A name that contains the separator of [mask]. *)
Definition bar_name_def : list entry :=
  [ Entry "A|B" 0 "both" [] ]%string.

(** One bit whose comment closes the string and the list and opens a
    second line, and the two bits that line describes. *)
Definition quoted_comment : string :=
  ("x" +:+ dquote +:+ "]" +:+ newline +:+
   "  - [B,                1, " +:+ dquote +:+ "y")%string.

Definition one_bit_def : list entry :=
  [ Entry "A" 0 quoted_comment [] ]%string.

Definition two_bit_def : list entry :=
  [ Entry "A" 0 "x" []; Entry "B" 1 "y" [] ]%string.

(** The two entries at one bit position, in the other order. *)
Definition shared_position_swapped : list entry :=
  [ Entry "B" 0 "second" []; Entry "A" 0 "first" [] ]%string.

(** The entries of [ccdmask] for [HOT] and [COSMIC], and the table in
    reverse order. *)
Definition hot_entry : entry :=
  Entry "HOT" 1 "Hot pixel" [PyDict [("blat", PyStr "foo")]]%string.

Definition cosmic_entry : entry := Entry "COSMIC" 4 "Cosmic ray" []%string.

Definition ccdmask_reversed : list entry := reverse ccdmask_entries.

(** * Properties *)

(** ** Strings *)

(** [split] never returns the empty list: its last case is out of reach. *)
Lemma split_nonempty sep s : split sep s ≠ [].
Proof.
  destruct s as [|c s]; simpl; [done|].
  destruct (Ascii.eqb c sep); [done|].
  by destruct (split sep s).
Qed.

Lemma split_no_sep sep s : contains sep s = false → split sep s = [s].
Proof.
  induction s as [|c s IH]; simpl; [done|].
  intros [Hc Hs]%orb_false_iff. rewrite Hc, (IH Hs). done.
Qed.

Lemma split_app_sep sep a b :
  contains sep a = false →
  split sep (a +:+ String sep b) = a :: split sep b.
Proof.
  induction a as [|c a IH]; simpl.
  - intros _. by rewrite Ascii.eqb_refl.
  - intros [Hc Ha]%orb_false_iff. rewrite Hc, (IH Ha). done.
Qed.

(** ** The error monad *)

Lemma bind_Ok {A B} (m : result A) (f : A → result B) b :
  bind m f = Ok b → ∃ a, m = Ok a ∧ f a = Ok b.
Proof. destruct m; simpl; [eauto|done]. Qed.

Lemma bind_Raise {A B} (m : result A) (f : A → result B) e :
  bind m f = Raise e → m = Raise e ∨ ∃ a, m = Ok a ∧ f a = Raise e.
Proof. destruct m; simpl; [eauto|]. intros [= ->]. by left. Qed.

Lemma getitem_Ok {V} (d : gmap key V) k v : getitem d k = Ok v ↔ d !! k = Some v.
Proof. unfold getitem. destruct (d !! k); naive_solver. Qed.

Section Properties.

(** The attributes of [int] objects, as in the definitions. *)
Variable int_hasattr : string → bool.

(** ** Construction: what a successful step does *)

Lemma set_extras_Raise bitname items d e :
  set_extras int_hasattr bitname items d = Raise e → is_validation_error e = true.
Proof.
  revert d. induction items as [|[k v] items IH]; intros d; simpl; [done|].
  destruct (hasattr int_hasattr _ k); [by intros [= <-]|apply IH].
Qed.

Lemma set_extras_taken bitname items d k :
  k ∈ items.*1 →
  k ∈ own_attrs ∨ int_hasattr k = true →
  ∃ e, set_extras int_hasattr bitname items d = Raise e.
Proof.
  intros Hk Hattr. revert d.
  induction items as [|[k' v] items IH]; intros d; simpl in *.
  { by apply elem_of_nil in Hk. }
  destruct (hasattr int_hasattr (d.*1) k') eqn:Hh; [eauto|].
  apply elem_of_cons in Hk as [->|Hk]; [|by apply IH].
  unfold hasattr in Hh.
  destruct Hattr as [Hown|Hint].
  - rewrite (bool_decide_eq_true_2 _ Hown) in Hh. done.
  - rewrite Hint, orb_true_r in Hh. done.
Qed.

Lemma _MaskBit_new_Ok bitname n c extra bit :
  _MaskBit_new int_hasattr bitname n c extra = Ok bit →
  name bit = bitname ∧ bitnum bit = Z.of_N n ∧ mask bit = 2 ^ Z.of_N n ∧
  value bit = 2 ^ Z.of_N n ∧ comment bit = c ∧ _extra bit = extra.
Proof.
  unfold _MaskBit_new. intros (d & _ & [= <-])%bind_Ok. done.
Qed.

Lemma init_step_Ok x bits bits' :
  init_step int_hasattr x bits = Ok bits' →
  ∃ bit,
    name bit = x_name x ∧ bitnum bit = Z.of_N (x_bitnum x) ∧
    mask bit = 2 ^ bitnum bit ∧ value bit = mask bit ∧
    comment bit = x_comment x ∧
    bits' = <[KInt (Z.of_N (x_bitnum x)) := bit]> (<[KStr (x_name x) := bit]> bits).
Proof.
  unfold init_step.
  intros (extra & _ & (bit & Hbit & Hrest)%bind_Ok)%bind_Ok.
  apply bind_Ok in Hrest as (same & Hsame & [= <-]).
  apply getitem_Ok in Hsame. rewrite lookup_insert_eq in Hsame.
  injection Hsame as <-.
  apply _MaskBit_new_Ok in Hbit as (? & Hn & Hm & Hv & ? & ?).
  exists bit. rewrite Hn, Hm, Hv. done.
Qed.

Lemma init_step_Raise x bits e :
  init_step int_hasattr x bits = Raise e → is_validation_error e = true.
Proof.
  unfold init_step. intros [He|(extra & _ & He)]%bind_Raise.
  - destruct (x_rest x) as [|x3 [|??]]; [done| |done].
    destruct x3; by inversion He.
  - apply bind_Raise in He as [He|(bit & _ & He)].
    + unfold _MaskBit_new in He.
      apply bind_Raise in He as [He|(d & _ & He)]; [|done].
      by eapply set_extras_Raise.
    + apply bind_Raise in He as [He|(same & _ & He)]; [|done].
      unfold getitem in He. by rewrite lookup_insert_eq in He.
Qed.

Lemma init_loop_Raise xs bits e :
  init_loop int_hasattr xs bits = Raise e → is_validation_error e = true.
Proof.
  revert bits. induction xs as [|x xs IH]; intros bits; simpl; [done|].
  intros [He|(bits' & _ & He)]%bind_Raise.
  - by eapply init_step_Raise.
  - by eapply IH.
Qed.

(** An entry on which the step raises whatever the table holds makes the
    whole loop raise. *)
Lemma init_loop_bad_entry xs x bits :
  x ∈ xs → (∀ b, ∃ e, init_step int_hasattr x b = Raise e) →
  ∃ e, init_loop int_hasattr xs bits = Raise e ∧ is_validation_error e = true.
Proof.
  intros Hx Hbad. revert bits.
  induction xs as [|y xs IH]; intros bits; [by apply elem_of_nil in Hx|].
  simpl. destruct (init_step int_hasattr y bits) as [bits'|e] eqn:Hy; simpl.
  - apply elem_of_cons in Hx as [->|Hx].
    + destruct (Hbad bits) as [e He]. congruence.
    + by apply IH.
  - exists e. split; [done|]. by eapply init_step_Raise.
Qed.

Lemma BitMask_init_Ok nm bitdefs R :
  BitMask_init int_hasattr nm bitdefs = Ok R →
  ∃ xs, bitdefs !! nm = Some xs ∧ init_loop int_hasattr xs ∅ = Ok (_bits R) ∧
        _name R = nm.
Proof.
  unfold BitMask_init. intros (xs & Hxs & Hrest)%bind_Ok.
  apply bind_Ok in Hrest as (bits & Hbits & [= <-]).
  exists xs. destruct (bitdefs !! nm); [|done].
  by injection Hxs as ->.
Qed.

(** ** Construction: the invariant of the table *)

Lemma wf_bits_empty : wf_bits ∅.
Proof.
  split; [|split]; intros ? b H; by rewrite lookup_empty in H.
Qed.

Lemma wf_bits_step x bits bits' :
  init_step int_hasattr x bits = Ok bits' → wf_bits bits → wf_bits bits'.
Proof.
  intros (bit & Hn & Hp & Hm & _ & _ & ->)%init_step_Ok (Hs & Hi & Hk).
  rewrite <- Hn, <- Hp. split; [|split]; [intros s b H; split|..].
  - rewrite lookup_insert_ne in H by done.
    apply lookup_insert_Some in H as [[[= <-] <-]|[_ H]]; [done|].
    by apply Hs in H as [? _].
  - rewrite lookup_insert_ne in H by done.
    apply lookup_insert_Some in H as [[[= <-] <-]|[_ H]].
    + rewrite lookup_insert_eq. eauto.
    + apply Hs in H as [_ [b' Hb']].
      destruct (decide (bitnum bit = bitnum b)) as [Heq|Hne].
      * rewrite Heq, lookup_insert_eq. eauto.
      * rewrite lookup_insert_ne by congruence.
        rewrite lookup_insert_ne by done. eauto.
  - intros n b H.
    apply lookup_insert_Some in H as [[[= <-] <-]|[_ H]]; [done|].
    rewrite lookup_insert_ne in H by done. by apply Hi.
  - intros k b H.
    apply lookup_insert_Some in H as [[_ <-]|[_ H]]; [split; [done|lia]|].
    apply lookup_insert_Some in H as [[_ <-]|[_ H]]; [split; [done|lia]|].
    by apply Hk in H.
Qed.

Lemma wf_bits_loop xs bits bits' :
  init_loop int_hasattr xs bits = Ok bits' → wf_bits bits → wf_bits bits'.
Proof.
  revert bits. induction xs as [|x xs IH]; intros bits; simpl.
  - by intros [= <-].
  - intros (b1 & Hstep & Hloop)%bind_Ok Hwf.
    eapply IH; [done|]. by eapply wf_bits_step.
Qed.

Lemma wf_bits_init nm bitdefs R :
  BitMask_init int_hasattr nm bitdefs = Ok R → wf_bits (_bits R).
Proof.
  intros (xs & _ & Hloop & _)%BitMask_init_Ok.
  eapply wf_bits_loop; [done|apply wf_bits_empty].
Qed.

(** The integer keys after the loop: those before it and the bit numbers
    of the entries. *)
Lemma init_loop_int_keys xs bits bits' k :
  init_loop int_hasattr xs bits = Ok bits' →
  is_Some (bits' !! KInt k) ↔
  is_Some (bits !! KInt k) ∨ ∃ x, x ∈ xs ∧ Z.of_N (x_bitnum x) = k.
Proof.
  revert bits. induction xs as [|x xs IH]; intros bits; simpl.
  - intros [= <-]. split; [by left|]. intros [?|(x & Hx & _)]; [done|].
    by apply elem_of_nil in Hx.
  - intros (b1 & Hstep & Hloop)%bind_Ok. rewrite (IH _ Hloop).
    apply init_step_Ok in Hstep as (bit & _ & _ & _ & _ & _ & ->).
    rewrite lookup_insert_is_Some, lookup_insert_is_Some. split.
    + intros [[Heq|[_ [?|[_ ?]]]]|(y & Hy & ?)]; [| done | by left |].
      * injection Heq as <-. right. exists x. split; [left|done].
      * right. exists y. split; [by right|done].
    + intros [?|(y & [->|Hy]%elem_of_cons & <-)].
      * left. destruct (decide (KInt (Z.of_N (x_bitnum x)) = KInt k)); [by left|].
        right. split; [done|]. right. done.
      * left. by left.
      * right. eauto.
Qed.

(** The string keys after the loop: those before it and the names of the
    entries. *)
Lemma init_loop_str_keys xs bits bits' s :
  init_loop int_hasattr xs bits = Ok bits' →
  is_Some (bits' !! KStr s) ↔
  is_Some (bits !! KStr s) ∨ ∃ x, x ∈ xs ∧ x_name x = s.
Proof.
  revert bits. induction xs as [|x xs IH]; intros bits; simpl.
  - intros [= <-]. split; [by left|]. intros [?|(x & Hx & _)]; [done|].
    by apply elem_of_nil in Hx.
  - intros (b1 & Hstep & Hloop)%bind_Ok. rewrite (IH _ Hloop).
    apply init_step_Ok in Hstep as (bit & _ & _ & _ & _ & _ & ->).
    rewrite lookup_insert_is_Some, lookup_insert_is_Some. split.
    + intros [[?|[_ [Heq|[_ ?]]]]|(y & Hy & ?)]; [done| | by left |].
      * injection Heq as <-. right. exists x. split; [left|done].
      * right. exists y. split; [by right|done].
    + intros [?|(y & [->|Hy]%elem_of_cons & <-)].
      * left. right. split; [done|].
        destruct (decide (KStr (x_name x) = KStr s)); [by left|by right].
      * left. right. split; [done|]. by left.
      * right. eauto.
Qed.

Lemma linked_loop xs bits bits' :
  init_loop int_hasattr xs bits = Ok bits' →
  linked bits →
  NoDup (x_bitnum <$> xs) →
  (∀ x, x ∈ xs → bits !! KInt (Z.of_N (x_bitnum x)) = None) →
  linked bits'.
Proof.
  revert bits. induction xs as [|x xs IH]; intros bits; simpl.
  - by intros [= <-].
  - intros (b1 & Hstep & Hloop)%bind_Ok Hl Hnd Hfresh.
    apply NoDup_cons in Hnd as [Hx Hnd].
    apply init_step_Ok in Hstep as (bit & Hn & Hp & _ & _ & _ & ->).
    eapply IH; [done| |done|].
    + intros s b H.
      rewrite lookup_insert_ne in H by done.
      apply lookup_insert_Some in H as [[_ <-]|[_ H]].
      * by rewrite <- Hp, lookup_insert_eq.
      * pose proof (Hl _ _ H) as Hb.
        assert (bitnum b ≠ Z.of_N (x_bitnum x)) as Hne.
        { intros Heq. rewrite Heq, Hfresh in Hb; [done|left]. }
        rewrite lookup_insert_ne by congruence.
        by rewrite lookup_insert_ne.
    + intros y Hy.
      assert (x_bitnum y ≠ x_bitnum x) as Hne.
      { intros Heq. apply Hx. rewrite <- Heq. by apply list_elem_of_fmap_2. }
      rewrite lookup_insert_ne by (intros [= ?]; lia).
      rewrite lookup_insert_ne by done. apply Hfresh. by right.
Qed.

Lemma linked_init nm bitdefs xs R :
  bitdefs !! nm = Some xs →
  BitMask_init int_hasattr nm bitdefs = Ok R →
  NoDup (x_bitnum <$> xs) →
  linked (_bits R).
Proof.
  intros Hxs (xs' & Hxs' & Hloop & _)%BitMask_init_Ok Hnd.
  assert (xs' = xs) as -> by congruence.
  eapply linked_loop; [done| |done|].
  - intros s b. by rewrite lookup_empty.
  - intros. apply lookup_empty.
Qed.

(** A table with a failing entry builds no registry. *)
Lemma init_bad_entry nm bitdefs xs x :
  bitdefs !! nm = Some xs → x ∈ xs →
  (∀ b, ∃ e, init_step int_hasattr x b = Raise e) →
  ∃ e, BitMask_init int_hasattr nm bitdefs = Raise e ∧
       is_validation_error e = true.
Proof.
  intros Hxs Hx Hbad. unfold BitMask_init. rewrite Hxs. simpl.
  destruct (init_loop_bad_entry xs x ∅ Hx Hbad) as (e & -> & He).
  by exists e.
Qed.

Lemma init_step_not_dict x v bits :
  x_rest x = [v] → (∀ d, v ≠ PyDict d) →
  ∃ e, init_step int_hasattr x bits = Raise e.
Proof.
  intros Hrest Hv. unfold init_step. rewrite Hrest.
  destruct v; simpl; eauto. by destruct (Hv d).
Qed.

Lemma init_step_taken_key x d k bits :
  x_rest x = [PyDict d] → k ∈ d.*1 → hasattr int_hasattr [] k = true →
  ∃ e, init_step int_hasattr x bits = Raise e.
Proof.
  intros Hrest Hk Hattr. unfold init_step, _MaskBit_new. rewrite Hrest. simpl.
  destruct (set_extras_taken (x_name x) d [] k Hk) as [e ->]; [|by eauto].
  unfold hasattr in Hattr. simpl in Hattr.
  apply orb_true_iff in Hattr as [Hattr|?]; [|by right].
  rewrite orb_false_r in Hattr. left. by apply bool_decide_eq_true_1 in Hattr.
Qed.

(** ** Lookups by name and by number *)

Lemma mask_single (R : BitMask) n b :
  _bits R !! KStr n = Some b → contains bar n = false →
  BitMask_mask R (KStr n) = Ok (mask b).
Proof.
  intros Hb Hn. unfold BitMask_mask. rewrite (split_no_sep _ _ Hn). simpl.
  unfold getitem. rewrite Hb. simpl. done.
Qed.

(** C4, as amended: in a constructed registry, for every registered name
    [n] that does not contain the separator ['|'], [mask(n)] is
    [2 ** bitnum(n)] and equals [mask(bitnum(n))]. *)
Theorem mask_consistency nm bitdefs R n :
  BitMask_init int_hasattr nm bitdefs = Ok R →
  registered R n →
  contains bar n = false →
  ∃ k, BitMask_bitnum R (KStr n) = Ok k ∧
       BitMask_mask R (KStr n) = Ok (2 ^ k) ∧
       BitMask_mask R (KInt k) = Ok (2 ^ k).
Proof.
  intros (Hs & Hi & Hk)%wf_bits_init [b Hb] Hn.
  destruct (Hs _ _ Hb) as [_ [b' Hb']].
  destruct (Hk _ _ Hb) as [Hm _]. destruct (Hk _ _ Hb') as [Hm' _].
  rewrite (Hi _ _ Hb') in Hm'.
  exists (bitnum b). split; [|split].
  - unfold BitMask_bitnum, getitem. by rewrite Hb.
  - rewrite (mask_single R n b Hb Hn). by rewrite Hm.
  - unfold BitMask_mask, getitem. rewrite Hb'. simpl. by rewrite Hm'.
Qed.

(** C5: for two registered names [A] and [B] without ['|'],
    [mask("A|B")] is the bitwise OR of [mask(A)] and [mask(B)], each of
    them computed by the same splitting loop. *)
Theorem mask_combination (R : BitMask) (A B : string) :
  registered R A → registered R B →
  contains bar A = false → contains bar B = false →
  ∃ a b, BitMask_mask R (KStr A) = Ok a ∧
         BitMask_mask R (KStr B) = Ok b ∧
         BitMask_mask R (KStr (A +:+ "|" +:+ B)) = Ok (Z.lor a b).
Proof.
  intros [a Ha] [b Hb] HA HB. exists (mask a), (mask b).
  split; [by apply mask_single|]. split; [by apply mask_single|].
  unfold BitMask_mask. change ("|" +:+ B)%string with (String bar B).
  rewrite (split_app_sep _ _ _ HA), (split_no_sep _ _ HB). simpl.
  unfold getitem. rewrite Ha. simpl. rewrite Hb. simpl. done.
Qed.

(** With pairwise distinct bit positions, the definition found under a
    registered name is the one found under its bit number. *)
Lemma getitem_by_number nm bitdefs xs R n :
  bitdefs !! nm = Some xs →
  BitMask_init int_hasattr nm bitdefs = Ok R →
  NoDup (x_bitnum <$> xs) →
  registered R n →
  ∃ b, BitMask_getitem R (KStr n) = Ok b ∧
       BitMask_bitnum R (KStr n) = Ok (bitnum b) ∧
       BitMask_getitem R (KInt (bitnum b)) = Ok b ∧
       name b = n.
Proof.
  intros Hxs Hinit Hnd [b Hb].
  pose proof (linked_init _ _ _ _ Hxs Hinit Hnd _ _ Hb) as Hb'.
  destruct (wf_bits_init _ _ _ Hinit) as (Hs & _ & _).
  exists b. unfold BitMask_getitem, BitMask_bitnum, getitem.
  rewrite Hb, Hb'. simpl. by destruct (Hs _ _ Hb).
Qed.

(** C6: in a registry constructed from a table whose entries have pairwise
    distinct names and pairwise distinct bit positions,
    [bitname(bitnum(n))] is [n] for every registered name [n]. *)
Theorem name_number_roundtrip nm bitdefs xs R n :
  bitdefs !! nm = Some xs →
  BitMask_init int_hasattr nm bitdefs = Ok R →
  NoDup (x_name <$> xs) →
  NoDup (x_bitnum <$> xs) →
  registered R n →
  ∃ k, BitMask_bitnum R (KStr n) = Ok k ∧
       BitMask_bitname R (KInt k) = Ok n.
Proof.
  intros Hxs Hinit _ Hnd Hn.
  destruct (getitem_by_number _ _ _ _ _ Hxs Hinit Hnd Hn)
    as (b & _ & Hk & Hb & Hname).
  exists (bitnum b). split; [done|].
  unfold BitMask_bitname. unfold BitMask_getitem in Hb. rewrite Hb. simpl.
  by rewrite Hname.
Qed.

(** C9, as amended: in a registry constructed from a table whose entries
    have pairwise distinct bit positions, [self[n]] and
    [self[bitnum(n)]] are the same definition for every registered name
    [n]. *)
Theorem dual_key_equivalence nm bitdefs xs R n :
  bitdefs !! nm = Some xs →
  BitMask_init int_hasattr nm bitdefs = Ok R →
  NoDup (x_bitnum <$> xs) →
  registered R n →
  ∃ b k, BitMask_getitem R (KStr n) = Ok b ∧
         BitMask_bitnum R (KStr n) = Ok k ∧
         BitMask_getitem R (KInt k) = Ok b.
Proof.
  intros Hxs Hinit Hnd Hn.
  destruct (getitem_by_number _ _ _ _ _ Hxs Hinit Hnd Hn)
    as (b & ? & ? & ? & _).
  by exists b, (bitnum b).
Qed.

(** ** Rejected tables *)

Lemma reserved_own k : k ∈ reserved_attrs → k ∈ own_attrs.
Proof.
  intros Hk. unfold own_attrs. apply elem_of_app. by left.
Qed.

(** C2: a table in which an entry of four elements has, as its fourth
    element, a mapping with a key that is one of the reserved attribute
    names ([name], [bitnum], [mask], [comment]) builds no registry:
    construction raises, with one of the two construction-time errors
    ([AttributeError] from this entry, unless an earlier entry raised). *)
Theorem reserved_key_rejected nm bitdefs xs x d k :
  bitdefs !! nm = Some xs →
  x ∈ xs →
  x_rest x = [PyDict d] →
  k ∈ d.*1 →
  k ∈ reserved_attrs →
  ∃ e, BitMask_init int_hasattr nm bitdefs = Raise e ∧
       is_validation_error e = true.
Proof.
  intros Hxs Hx Hrest Hk Hres.
  eapply init_bad_entry; [done..|].
  intros b. eapply init_step_taken_key; [done..|].
  unfold hasattr. apply orb_true_iff. left. apply orb_true_iff. left.
  apply bool_decide_eq_true_2. by apply reserved_own.
Qed.

(** C7: a table in which an entry of four elements has a fourth element
    that is not a mapping builds no registry: construction raises, with
    one of the two construction-time errors ([ValueError] from this entry,
    unless an earlier entry raised). *)
Theorem malformed_extra_rejected nm bitdefs xs x v :
  bitdefs !! nm = Some xs →
  x ∈ xs →
  x_rest x = [v] →
  (∀ d, v ≠ PyDict d) →
  ∃ e, BitMask_init int_hasattr nm bitdefs = Raise e ∧
       is_validation_error e = true.
Proof.
  intros Hxs Hx Hrest Hv.
  eapply init_bad_entry; [done..|].
  intros b. by eapply init_step_not_dict.
Qed.

Lemma hasattr_fresh k :
  hasattr int_hasattr [] k = true ↔ k ∈ own_attrs ∨ int_hasattr k = true.
Proof.
  unfold hasattr. rewrite !orb_true_iff, !bool_decide_eq_true. simpl.
  split; [intros [[?|?%elem_of_nil]|?]|intros [?|?]]; auto.
Qed.

(** C10: a table in which an entry's mapping of extra attributes has a key
    that the new definition already has as an attribute, [hasattr(self,
    key)], builds no registry.  These keys are the four reserved names,
    [_extra], and every attribute of [int] objects. *)
Theorem taken_attribute_rejected nm bitdefs xs x d k :
  bitdefs !! nm = Some xs →
  x ∈ xs →
  x_rest x = [PyDict d] →
  k ∈ d.*1 →
  k ∈ reserved_attrs ∨ int_hasattr k = true ∨
    hasattr int_hasattr [] k = true →
  ∃ e, BitMask_init int_hasattr nm bitdefs = Raise e.
Proof.
  intros Hxs Hx Hrest Hk Hattr.
  destruct (init_bad_entry nm bitdefs xs x Hxs Hx) as (e & He & _); [|eauto].
  intros b. eapply init_step_taken_key; [done..|].
  destruct Hattr as [Hres|[Hint|Hattr]]; [| |done]; apply hasattr_fresh.
  - left. by apply reserved_own.
  - by right.
Qed.

(** ** Enumeration: the bit numbers of a table, sorted *)

Lemma elem_of_bitnums (bits : gmap key _MaskBit) n :
  n ∈ bitnums bits ↔ is_Some (bits !! KInt n).
Proof.
  unfold bitnums. rewrite list_elem_of_omap. split.
  - intros ([k b] & Hkb & Hk). simpl in Hk. destruct k as [s|n']; [done|].
    injection Hk as ->. apply elem_of_map_to_list in Hkb. eauto.
  - intros [b Hb]. exists (KInt n, b). split; [|done].
    by apply elem_of_map_to_list.
Qed.

Lemma NoDup_omap_inj {A B} (f : A → option B) (l : list A) :
  (∀ x y z, f x = Some z → f y = Some z → x = y) →
  NoDup l → NoDup (omap f l).
Proof.
  intros Hinj. induction 1 as [|x l Hx Hl IH]; simpl; [constructor|].
  destruct (f x) as [z|] eqn:Hfx; [|done].
  constructor; [|done].
  intros (y & Hy & Hfy)%list_elem_of_omap.
  by rewrite (Hinj _ _ _ Hfx Hfy) in Hx.
Qed.

Lemma NoDup_bitnums (bits : gmap key _MaskBit) : NoDup (bitnums bits).
Proof.
  unfold bitnums.
  assert (omap (λ kv : key * _MaskBit,
                  match kv.1 with KInt n => Some n | KStr _ => None end)
               (map_to_list bits)
          = omap (λ k, match k with KInt n => Some n | KStr _ => None end)
                 (map_to_list bits).*1) as ->.
  { induction (map_to_list bits) as [|[k b] l IH]; [done|].
    csimpl. destruct k; csimpl; by rewrite IH. }
  apply NoDup_omap_inj; [|apply NoDup_fst_map_to_list].
  intros [?|?] [?|?] z; congruence.
Qed.

Lemma StronglySorted_le_lt (l : list Z) :
  StronglySorted Z.le l → NoDup l → StronglySorted Z.lt l.
Proof.
  induction 1 as [|x l Hl IH Hx]; intros Hnd; constructor.
  - apply IH. by apply NoDup_cons in Hnd as [_ ?].
  - apply NoDup_cons in Hnd as [Hnx _].
    apply Forall_forall. intros y Hy.
    assert (x ≤ y) by (by eapply Forall_forall in Hx).
    assert (x ≠ y) by (by intros ->). lia.
Qed.

Lemma sorted_elem_of l k : k ∈ sorted l ↔ k ∈ l.
Proof. unfold sorted. by rewrite merge_sort_Permutation. Qed.

Lemma sorted_strict l : NoDup l → StronglySorted Z.lt (sorted l).
Proof.
  intros Hnd. apply StronglySorted_le_lt.
  - apply StronglySorted_merge_sort; apply _.
  - unfold sorted. by rewrite merge_sort_Permutation.
Qed.

(** Every definition in the table after the loop was there before it or
    comes from an entry. *)
Lemma init_loop_from_entry xs bits bits' k b :
  init_loop int_hasattr xs bits = Ok bits' →
  bits' !! k = Some b →
  bits !! k = Some b ∨
  ∃ x, x ∈ xs ∧ name b = x_name x ∧ bitnum b = Z.of_N (x_bitnum x) ∧
       comment b = x_comment x.
Proof.
  revert bits. induction xs as [|x xs IH]; intros bits; simpl.
  - intros [= <-]. by left.
  - intros (b1 & Hstep & Hloop)%bind_Ok Hb.
    destruct (IH _ Hloop Hb) as [Hb1|(y & Hy & ?)].
    + apply init_step_Ok in Hstep as (bit & Hn & Hp & _ & _ & Hc & ->).
      apply lookup_insert_Some in Hb1 as [[_ <-]|[_ Hb1]].
      { right. exists x. split; [left|done]. }
      apply lookup_insert_Some in Hb1 as [[_ <-]|[_ Hb1]].
      { right. exists x. split; [left|done]. }
      by left.
    + right. exists y. split; [by right|done].
Qed.

(** [names()] lists, in strictly ascending order of bit number, one name
    for each bit number of the table: the name registered at that number,
    which is the name of an entry with that number. *)
Lemma names_none_spec nm bitdefs xs R :
  bitdefs !! nm = Some xs →
  BitMask_init int_hasattr nm bitdefs = Ok R →
  ∃ ks ns,
    BitMask_names R None = Some ns ∧
    StronglySorted Z.lt ks ∧
    (∀ k, k ∈ ks ↔ ∃ x, x ∈ xs ∧ Z.of_N (x_bitnum x) = k) ∧
    Forall2 (λ k n, BitMask_bitname R (KInt k) = Ok n ∧
                    ∃ x, x ∈ xs ∧ Z.of_N (x_bitnum x) = k ∧ x_name x = n)
            ks ns.
Proof.
  intros Hxs Hinit.
  destruct (BitMask_init_Ok _ _ _ Hinit) as (xs' & Hxs' & Hloop & _).
  assert (xs' = xs) as -> by congruence.
  set (ks := sorted (bitnums (_bits R))).
  assert (Hks : ∀ k, k ∈ ks ↔ is_Some (_bits R !! KInt k)).
  { intros k. unfold ks. by rewrite sorted_elem_of, elem_of_bitnums. }
  destruct (mapM_is_Some_2 (λ n, name <$> _bits R !! KInt n) ks) as [ns Hns].
  { apply Forall_forall. intros k [b Hb]%Hks. simpl. rewrite Hb. by eexists. }
  exists ks, ns. split; [done|]. split; [apply sorted_strict, NoDup_bitnums|].
  split.
  - intros k. rewrite Hks, (init_loop_int_keys _ _ _ _ Hloop).
    rewrite lookup_empty. split; [|by right].
    intros [[? ?]|?]; done.
  - apply mapM_Some_1 in Hns.
    eapply Forall2_impl; [exact Hns|]. intros k n Hkn. simpl in Hkn.
    destruct (_bits R !! KInt k) as [b|] eqn:Hb; [|done].
    injection Hkn as <-. split.
    + unfold BitMask_bitname, getitem. by rewrite Hb.
    + destruct (init_loop_from_entry _ _ _ _ _ Hloop Hb)
        as [Hemp|(x & Hx & Hn & Hp & _)]; [by rewrite lookup_empty in Hemp|].
      destruct (wf_bits_init _ _ _ Hinit) as (_ & Hi & _).
      exists x. rewrite <- Hp, (Hi _ _ Hb). done.
Qed.

Lemma StronglySorted_lt_NoDup (l : list Z) : StronglySorted Z.lt l → NoDup l.
Proof.
  induction 1 as [|x l _ IH Hx]; constructor; [|done].
  intros Hin. eapply Forall_forall in Hx; [|exact Hin]. lia.
Qed.

Lemma strictly_sorted_unique (l1 l2 : list Z) :
  StronglySorted Z.lt l1 → StronglySorted Z.lt l2 →
  (∀ k, k ∈ l1 ↔ k ∈ l2) → l1 = l2.
Proof.
  intros H1 H2 Hmem.
  apply (StronglySorted_unique_strong Z.lt); [intros; lia|done..|].
  apply NoDup_Permutation; [by apply StronglySorted_lt_NoDup..|done].
Qed.

Lemma Forall2_functional {A B} (P Q : A → B → Prop) l k1 k2 :
  Forall2 P l k1 → Forall2 Q l k2 →
  (∀ x y1 y2, x ∈ l → P x y1 → Q x y2 → y1 = y2) →
  k1 = k2.
Proof.
  intros HP. revert k2. induction HP as [|x y l k1 Hxy _ IH]; intros k2 HQ Hfun.
  - by inversion HQ.
  - inversion HQ as [|? y2 ? k2' Hxy2 HQ']; subst. f_equal.
    + eapply Hfun; [left|done..].
    + apply IH; [done|]. intros z ? ? Hz. apply Hfun. by right.
Qed.

Lemma NoDup_fmap_unique {A B} (f : A → B) (l : list A) x y :
  NoDup (f <$> l) → x ∈ l → y ∈ l → f x = f y → x = y.
Proof.
  induction l as [|z l IH]; csimpl; [by intros _ ?%elem_of_nil|].
  intros [Hz Hl]%NoDup_cons [->|Hx]%elem_of_cons [->|Hy]%elem_of_cons Hf.
  - done.
  - destruct Hz. rewrite Hf. by apply list_elem_of_fmap_2.
  - destruct Hz. rewrite <- Hf. by apply list_elem_of_fmap_2.
  - by apply IH.
Qed.

(** With pairwise distinct bit positions, the position of an entry
    determines the entry. *)
Lemma entry_at_position xs x y :
  NoDup (x_bitnum <$> xs) → x ∈ xs → y ∈ xs →
  Z.of_N (x_bitnum x) = Z.of_N (x_bitnum y) → x = y.
Proof.
  intros Hnd Hx Hy Hp. eapply NoDup_fmap_unique; [done..|]. by apply N2Z.inj.
Qed.

Lemma names_cover_entries nm bitdefs xs R ns x :
  bitdefs !! nm = Some xs →
  BitMask_init int_hasattr nm bitdefs = Ok R →
  NoDup (x_bitnum <$> xs) →
  BitMask_names R None = Some ns →
  x ∈ xs → x_name x ∈ ns.
Proof.
  intros Hxs Hinit Hnd Hns Hx.
  destruct (names_none_spec _ _ _ _ Hxs Hinit) as (ks & ns' & Hns' & _ & Hks & Hall).
  assert (ns' = ns) as -> by congruence.
  assert (Z.of_N (x_bitnum x) ∈ ks) as [i Hi]%list_elem_of_lookup_1.
  { apply Hks. eauto. }
  destruct (Forall2_lookup_l _ _ _ _ _ Hall Hi)
    as (n & Hn & _ & y & Hy & Hp & <-).
  rewrite (entry_at_position xs x y Hnd Hx Hy) by done.
  by eapply list_elem_of_lookup_2.
Qed.

Lemma names_order_independent nm bitdefs xs R nm' bitdefs' xs' R' ns :
  bitdefs !! nm = Some xs →
  BitMask_init int_hasattr nm bitdefs = Ok R →
  bitdefs' !! nm' = Some xs' →
  BitMask_init int_hasattr nm' bitdefs' = Ok R' →
  xs' ≡ₚ xs →
  NoDup (x_bitnum <$> xs) →
  BitMask_names R None = Some ns →
  BitMask_names R' None = Some ns.
Proof.
  intros Hxs Hinit Hxs' Hinit' Hperm Hnd Hns.
  destruct (names_none_spec _ _ _ _ Hxs Hinit)
    as (ks & ns0 & Hns0 & Hsort & Hks & Hall).
  assert (ns0 = ns) as -> by congruence.
  destruct (names_none_spec _ _ _ _ Hxs' Hinit')
    as (ks' & ns' & -> & Hsort' & Hks' & Hall').
  assert (ks' = ks) as ->.
  { apply strictly_sorted_unique; [done..|].
    intros k. rewrite Hks, Hks'. by setoid_rewrite Hperm. }
  f_equal. eapply Forall2_functional; [exact Hall'|exact Hall|].
  intros k n1 n2 _ (_ & x1 & Hx1 & Hp1 & <-) (_ & x2 & Hx2 & Hp2 & <-).
  rewrite Hperm in Hx1.
  by rewrite (entry_at_position xs x1 x2 Hnd Hx1 Hx2) by congruence.
Qed.

(** For every constructed registry, [names()] lists, in strictly ascending
    order of bit number, one name for each bit number of the table: the
    name registered at that number, which is the name of an entry with
    that number.  No condition on the table is needed. *)
Theorem names_one_per_bit_number nm bitdefs xs R :
  bitdefs !! nm = Some xs →
  BitMask_init int_hasattr nm bitdefs = Ok R →
  ∃ ks ns,
    BitMask_names R None = Some ns ∧
    StronglySorted Z.lt ks ∧
    (∀ k, k ∈ ks ↔ ∃ x, x ∈ xs ∧ Z.of_N (x_bitnum x) = k) ∧
    Forall2 (λ k n, BitMask_bitname R (KInt k) = Ok n ∧
                    ∃ x, x ∈ xs ∧ Z.of_N (x_bitnum x) = k ∧ x_name x = n)
            ks ns.
Proof. intros Hxs Hinit. exact (names_none_spec nm bitdefs xs R Hxs Hinit). Qed.

(** With pairwise distinct bit positions, [names()] lists the registered
    names and nothing else. *)
Lemma names_are_registered nm bitdefs xs R ns n :
  bitdefs !! nm = Some xs →
  BitMask_init int_hasattr nm bitdefs = Ok R →
  NoDup (x_bitnum <$> xs) →
  BitMask_names R None = Some ns →
  n ∈ ns ↔ registered R n.
Proof.
  intros Hxs Hinit Hnd Hns.
  destruct (BitMask_init_Ok _ _ _ Hinit) as (xs' & Hxs' & Hloop & _).
  assert (xs' = xs) as -> by congruence.
  assert (Hreg : registered R n ↔ ∃ x, x ∈ xs ∧ x_name x = n).
  { unfold registered. rewrite (init_loop_str_keys _ _ _ _ Hloop), lookup_empty.
    split; [|by right]. intros [[? ?]|?]; done. }
  rewrite Hreg. split.
  - intros [i Hi]%list_elem_of_lookup_1.
    destruct (names_none_spec _ _ _ _ Hxs Hinit)
      as (ks & ns' & Hns' & _ & _ & Hall).
    assert (ns' = ns) as -> by congruence.
    destruct (Forall2_lookup_r _ _ _ _ _ Hall Hi)
      as (k & _ & _ & x & Hx & _ & Hname).
    eauto.
  - intros (x & Hx & <-).
    exact (names_cover_entries nm bitdefs xs R ns x Hxs Hinit Hnd Hns Hx).
Qed.

(** C8, as amended: in a registry constructed from a table whose entries
    have pairwise distinct bit positions, [names()] lists the names of all
    registered bits (every registered name, so the name of every entry,
    and nothing else), one for each bit number of the table in strictly
    ascending order of bit number, and every reordering of the table gives
    the same list. *)
Theorem names_all_ascending nm bitdefs xs R :
  bitdefs !! nm = Some xs →
  BitMask_init int_hasattr nm bitdefs = Ok R →
  NoDup (x_bitnum <$> xs) →
  ∃ ks ns,
    BitMask_names R None = Some ns ∧
    StronglySorted Z.lt ks ∧
    (∀ k, k ∈ ks ↔ ∃ x, x ∈ xs ∧ Z.of_N (x_bitnum x) = k) ∧
    Forall2 (λ k n, BitMask_bitname R (KInt k) = Ok n ∧
                    ∃ x, x ∈ xs ∧ Z.of_N (x_bitnum x) = k ∧ x_name x = n)
            ks ns ∧
    (∀ n, n ∈ ns ↔ registered R n) ∧
    (∀ x, x ∈ xs → x_name x ∈ ns) ∧
    (∀ nm' bitdefs' xs' R',
       bitdefs' !! nm' = Some xs' →
       BitMask_init int_hasattr nm' bitdefs' = Ok R' →
       xs' ≡ₚ xs →
       BitMask_names R' None = Some ns).
Proof.
  intros Hxs Hinit Hnd.
  destruct (names_none_spec _ _ _ _ Hxs Hinit)
    as (ks & ns & Hns & Hsort & Hks & Hall).
  exists ks, ns. repeat (split; [done|]). split; [|split].
  - intros n.
    exact (names_are_registered nm bitdefs xs R ns n Hxs Hinit Hnd Hns).
  - intros x Hx.
    exact (names_cover_entries nm bitdefs xs R ns x Hxs Hinit Hnd Hns Hx).
  - intros nm' bitdefs' xs' R' Hxs' Hinit' Hperm.
    exact (names_order_independent nm bitdefs xs R nm' bitdefs' xs' R' ns
             Hxs Hinit Hxs' Hinit' Hperm Hnd Hns).
Qed.

End Properties.

(** ** Decoding a mask *)

(** The test [2**bitnum & mask] of the loop reads bit [bitnum] of [mask]. *)
Lemma land_pow2_testbit m k :
  0 ≤ k → negb (Z.land (2 ^ k) m =? 0) = Z.testbit m k.
Proof.
  intros Hk. destruct (Z.testbit m k) eqn:Hbit.
  - apply negb_true_iff, Z.eqb_neq. intros H0.
    assert (Z.testbit (Z.land (2 ^ k) m) k = true) as Hl.
    { by rewrite Z.land_spec, Z.pow2_bits_true, Hbit. }
    by rewrite H0, Z.bits_0 in Hl.
  - apply negb_false_iff, Z.eqb_eq, Z.bits_inj_0. intros j.
    rewrite Z.land_spec. destruct (decide (k = j)) as [<-|Hne].
    + by rewrite Hbit, andb_false_r.
    + by rewrite Z.pow2_bits_false.
Qed.

(** The guard [bitnum**2 <= mask] holds up to the integer square root. *)
Lemma guard_sqrt m i : 0 ≤ m → 0 ≤ i → (i ^ 2 <=? m) = bool_decide (i ≤ Z.sqrt m).
Proof.
  intros Hm Hi. pose proof (Z.sqrt_spec m Hm) as [Hlo Hhi].
  pose proof (Z.sqrt_nonneg m).
  case_bool_decide as Hle.
  - apply Z.leb_le. nia.
  - apply Z.leb_gt. nia.
Qed.

(** The loop started at [i] appends the labels of the set bits from [i] up
    to the integer square root of the mask, and it ends. *)
Lemma names_loop_run bits m fuel :
  0 ≤ m → ∀ i acc,
  0 ≤ i →
  (Z.to_nat (Z.sqrt m + 1 - i) < fuel)%nat →
  names_loop fuel bits m i acc =
  Some (acc ++ (label bits <$>
                filter (λ k, Z.testbit m k = true)
                       (seqZ i (Z.sqrt m + 1 - i)))).
Proof.
  intros Hm. induction fuel as [|fuel IH]; intros i acc Hi Hfuel; [lia|].
  simpl. rewrite (guard_sqrt m i Hm Hi). case_bool_decide as Hle.
  - rewrite (land_pow2_testbit m i Hi).
    rewrite (seqZ_cons i) by lia.
    rewrite IH by lia.
    replace (Z.sqrt m + 1 - (i + 1)) with (Z.pred (Z.sqrt m + 1 - i)) by lia.
    replace (Z.succ i) with (i + 1) by lia.
    destruct (Z.testbit m i) eqn:Hbit; simpl.
    + rewrite filter_cons_True by done. csimpl.
      unfold label at 2. destruct (bits !! KInt i);
        by rewrite <- app_assoc.
    + rewrite filter_cons_False by (by rewrite Hbit). done.
  - rewrite seqZ_nil by lia. rewrite filter_nil. csimpl.
    by rewrite app_nil_r.
Qed.

(** [names(mask)] ends for every mask. *)
Lemma names_terminates (R : BitMask) m : is_Some (BitMask_names R (Some m)).
Proof.
  unfold BitMask_names. destruct (decide (0 ≤ m)) as [Hm|Hm].
  - pose proof (Z.sqrt_nonneg m).
    rewrite names_loop_run by lia. by eexists.
  - replace (Z.to_nat (Z.sqrt m) + 2)%nat with (S (Z.to_nat (Z.sqrt m) + 1))
      by lia.
    simpl. replace (0 ^ 2 <=? m) with false; [by eexists|].
    symmetry. apply Z.leb_gt. lia.
Qed.

Lemma names_by_sqrt (R : BitMask) m :
  0 ≤ m →
  BitMask_names R (Some m) =
  Some (label (_bits R) <$>
        filter (λ k, Z.testbit m k = true) (seqZ 0 (Z.sqrt m + 1))).
Proof.
  intros Hm. unfold BitMask_names. pose proof (Z.sqrt_nonneg m).
  rewrite names_loop_run by lia. by rewrite Z.sub_0_r.
Qed.

Lemma filter_none {A} (P : A → Prop) `{∀ x, Decision (P x)} (l : list A) :
  (∀ x, x ∈ l → ¬ P x) → filter P l = [].
Proof.
  induction l as [|x l IH]; intros Hl; [done|].
  rewrite filter_cons_False by (apply Hl; left).
  apply IH. intros y Hy. apply Hl. by right.
Qed.

Lemma filter_seqZ_extend (P : Z → Prop) `{∀ k, Decision (P k)} a b :
  0 ≤ a ≤ b → (∀ k, a ≤ k < b → ¬ P k) →
  filter P (seqZ 0 b) = filter P (seqZ 0 a).
Proof.
  intros Hab HP. replace b with (a + (b - a)) by lia.
  rewrite seqZ_app by lia. rewrite filter_app.
  rewrite (filter_none P (seqZ (0 + a) (b - a))); [apply app_nil_r|].
  intros k Hk%elem_of_seqZ. apply HP. lia.
Qed.

(** A square is below the power of two, at every exponent but 3. *)
Lemma square_le_pow2 k : 0 ≤ k → k ≠ 3 → k * k ≤ 2 ^ k.
Proof.
  intros Hk H3.
  destruct (decide (k < 4)) as [Hlt|Hge].
  - assert (k = 0 ∨ k = 1 ∨ k = 2) as [->|[->| ->]] by lia; simpl; lia.
  - clear H3. assert (4 ≤ k) as H4 by lia. clear Hge Hk. revert k H4.
    apply (Z.le_ind (λ k, k * k ≤ 2 ^ k)); [solve_proper|simpl; lia|].
    intros k Hk IH. rewrite Z.pow_succ_r by lia. nia.
Qed.

(** A set bit of a non-negative mask other than 8 lies within the range
    the loop scans. *)
Lemma set_bit_below_sqrt m k :
  0 ≤ m → m ≠ 8 → 0 ≤ k → Z.testbit m k = true → k ≤ Z.sqrt m.
Proof.
  intros Hm H8 Hk Hbit.
  assert (0 < m) as Hpos.
  { destruct (decide (m = 0)) as [->|]; [by rewrite Z.bits_0 in Hbit|lia]. }
  assert (k ≤ Z.log2 m) as Hlog.
  { destruct (decide (k ≤ Z.log2 m)); [done|].
    rewrite Z.bits_above_log2 in Hbit by lia. done. }
  pose proof (Z.log2_spec m Hpos) as [Hlo _].
  assert (2 ^ k ≤ m) as Hpow.
  { etrans; [|exact Hlo]. apply Z.pow_le_mono_r; lia. }
  apply Z.sqrt_le_square; [lia..|].
  destruct (decide (k = 3)) as [->|H3]; [simpl in Hpow; lia|].
  pose proof (square_le_pow2 k Hk H3). lia.
Qed.

(** The result of the loop does not depend on the fuel, once there is
    enough of it. *)
Lemma names_loop_more_fuel bits m fuel fuel' i acc l :
  names_loop fuel bits m i acc = Some l → (fuel ≤ fuel')%nat →
  names_loop fuel' bits m i acc = Some l.
Proof.
  revert fuel' i acc. induction fuel as [|fuel IH]; intros fuel' i acc; [done|].
  destruct fuel' as [|fuel']; [lia|]. simpl.
  destruct (i ^ 2 <=? m); [|done]. intros Hl Hle. apply IH; [done|lia].
Qed.

(** [set_positions] in the words of the specification: the positions [k]
    with [2^k <= m] whose bit is set, [m & 2^k != 0], in ascending
    order. *)
Lemma elem_of_set_positions m k :
  0 ≤ m →
  k ∈ set_positions m ↔ 0 ≤ k ∧ 2 ^ k ≤ m ∧ Z.land (2 ^ k) m ≠ 0.
Proof.
  intros Hm. unfold set_positions.
  rewrite list_elem_of_filter, elem_of_seqZ. split.
  - intros [Hbit [Hk Hlog]].
    assert (0 < m) as Hpos.
    { destruct (decide (m = 0)) as [->|]; [by rewrite Z.bits_0 in Hbit|lia]. }
    split; [done|]. split; [apply Z.log2_le_pow2; lia|].
    rewrite <- (land_pow2_testbit m k Hk) in Hbit.
    by apply negb_true_iff, Z.eqb_neq in Hbit.
  - intros (Hk & Hpow & Hland).
    assert (0 < m) as Hpos.
    { pose proof (Z.pow_pos_nonneg 2 k). lia. }
    split.
    + rewrite <- (land_pow2_testbit m k Hk).
      by apply negb_true_iff, Z.eqb_neq.
    + apply Z.log2_le_pow2 in Hpow; lia.
Qed.

Lemma StronglySorted_seqZ m n : StronglySorted Z.lt (seqZ m n).
Proof.
  remember (Z.to_nat n) as len eqn:Hlen. revert m n Hlen.
  induction len as [|len IH]; intros m n Hlen.
  - rewrite seqZ_nil by lia. constructor.
  - rewrite seqZ_cons by lia. constructor; [apply IH; lia|].
    apply Forall_forall. intros k Hk%elem_of_seqZ. lia.
Qed.

Lemma StronglySorted_filter (P : Z → Prop) `{∀ k, Decision (P k)} l :
  StronglySorted Z.lt l → StronglySorted Z.lt (filter P l).
Proof.
  induction 1 as [|x l _ IH Hx]; [constructor|].
  destruct (decide (P x)).
  - rewrite filter_cons_True by done. constructor; [done|].
    apply Forall_forall. intros y [_ Hy]%list_elem_of_filter.
    by eapply Forall_forall in Hx.
  - by rewrite filter_cons_False.
Qed.

Lemma set_positions_ascending m : StronglySorted Z.lt (set_positions m).
Proof. apply StronglySorted_filter, StronglySorted_seqZ. Qed.

(** Decode correctness, except at 8: for every registry and every
    non-negative mask other than 8, [names(mask)] is the list of the labels
    of the set bits of the mask in ascending position. *)
Theorem names_in_mask_correct (R : BitMask) m :
  0 ≤ m → m ≠ 8 →
  BitMask_names R (Some m) = Some (names_in_mask_spec R m).
Proof.
  intros Hm H8. rewrite (names_by_sqrt R m Hm).
  unfold names_in_mask_spec, set_positions. do 2 f_equal.
  pose proof (Z.sqrt_nonneg m). pose proof (Z.log2_nonneg m).
  set (P := λ k, Z.testbit m k = true).
  trans (filter P (seqZ 0 (Z.max (Z.sqrt m) (Z.log2 m) + 1))).
  - symmetry. apply filter_seqZ_extend; [lia|].
    intros k Hk Hbit.
    assert (k ≤ Z.sqrt m); [|lia].
    apply set_bit_below_sqrt; [done|done|lia|exact Hbit].
  - apply filter_seqZ_extend; [lia|].
    intros k Hk Hbit. unfold P in Hbit.
    rewrite Z.bits_above_log2 in Hbit by lia. done.
Qed.

(** C1 at its failing input: for every registry, [names(8)] is the empty
    list, although bit 3 is set in 8 and decode correctness asks for its
    label; the loop's guard [bitnum**2 <= mask] ends the scan at position
    2. *)
Theorem names_of_8_drops_bit_3 (R : BitMask) :
  BitMask_names R (Some 8) = Some [] ∧
  names_in_mask_spec R 8 = [label (_bits R) 3].
Proof. split; reflexivity. Qed.

(** ** Serialization *)

Lemma same_repr_one_two (py_str : pyvalue → string) :
  BitMask_repr py_str (build one_bit_def) =
  BitMask_repr py_str (build two_bit_def).
Proof. vm_compute. reflexivity. Qed.

(** C3 at its failing input: the registry whose single comment holds a
    double quote and a line break has, for every rendering of extras, the
    same [repr] as a registry of two bits, so no loader of definition
    tables satisfies the round-trip law: the text does not tell the two
    registries apart, and they differ in their names. *)
Theorem repr_roundtrip_fails (int_hasattr : string → bool)
    (py_str : pyvalue → string)
    (parse : string → option (gmap string (list entry))) :
  BitMask_init int_hasattr "ccdmask" (table one_bit_def)
    = Ok (build one_bit_def) ∧
  BitMask_init int_hasattr "ccdmask" (table two_bit_def)
    = Ok (build two_bit_def) ∧
  BitMask_repr py_str (build one_bit_def)
    = BitMask_repr py_str (build two_bit_def) ∧
  BitMask_names (build one_bit_def) None = Some ["A"%string] ∧
  BitMask_names (build two_bit_def) None = Some ["A"; "B"]%string ∧
  ¬ roundtrip_law int_hasattr py_str parse.
Proof.
  split; [vm_compute; reflexivity|]. split; [vm_compute; reflexivity|].
  split; [apply same_repr_one_two|].
  split; [vm_compute; reflexivity|]. split; [vm_compute; reflexivity|].
  intros Hlaw.
  destruct (Hlaw "ccdmask"%string (table one_bit_def) (build one_bit_def))
    as (t1 & d1 & R1 & Ht1 & Hd1 & HR1 & Hsame1 & _); [vm_compute; reflexivity|].
  destruct (Hlaw "ccdmask"%string (table two_bit_def) (build two_bit_def))
    as (t2 & d2 & R2 & Ht2 & Hd2 & HR2 & Hsame2 & _); [vm_compute; reflexivity|].
  rewrite same_repr_one_two, Ht2 in Ht1. injection Ht1 as <-.
  rewrite Hd2 in Hd1. injection Hd1 as <-.
  rewrite HR2 in HR1. injection HR1 as <-.
  assert (registered (build one_bit_def) "B") as [b Hb].
  { apply Hsame1, Hsame2. by eexists. }
  vm_compute in Hb. done.
Qed.

(** * The properties on the registry of the test suite *)

Lemma ccdmask_built :
  BitMask_init int_attrs "ccdmask" (table ccdmask_entries) = Ok ccdmask.
Proof. vm_compute. reflexivity. Qed.

Lemma ccdmask_table xs : table xs !! "ccdmask"%string = Some xs.
Proof. apply lookup_singleton_eq. Qed.

Lemma ccdmask_registered_COSMIC : registered ccdmask "COSMIC".
Proof. eexists. vm_compute. reflexivity. Qed.

Lemma ccdmask_registered_SATURATED : registered ccdmask "SATURATED".
Proof. eexists. vm_compute. reflexivity. Qed.

Lemma ccdmask_positions_distinct : NoDup (x_bitnum <$> ccdmask_entries).
Proof. apply (bool_decide_unpack _). vm_compute. exact I. Qed.

Lemma ccdmask_names_distinct : NoDup (x_name <$> ccdmask_entries).
Proof. apply (bool_decide_unpack _). vm_compute. exact I. Qed.

(** C4 on [ccdmask] and [COSMIC]. *)
Lemma mask_consistency_witness :
  ∃ k, BitMask_bitnum ccdmask (KStr "COSMIC") = Ok k ∧
       BitMask_mask ccdmask (KStr "COSMIC") = Ok (2 ^ k) ∧
       BitMask_mask ccdmask (KInt k) = Ok (2 ^ k).
Proof.
  exact (mask_consistency int_attrs "ccdmask" (table ccdmask_entries) ccdmask
           "COSMIC" ccdmask_built ccdmask_registered_COSMIC eq_refl).
Defined.

(** C4 as stated fails on a name that contains the separator: the registry
    of the single bit [A|B] is built, [A|B] is registered in it, and
    [mask("A|B")] raises [KeyError('A')]. *)
Lemma mask_of_bar_name_raises :
  BitMask_init int_attrs "ccdmask" (table bar_name_def)
    = Ok (build bar_name_def) ∧
  registered (build bar_name_def) "A|B" ∧
  BitMask_bitnum (build bar_name_def) (KStr "A|B") = Ok 0 ∧
  BitMask_mask (build bar_name_def) (KInt 0) = Ok (2 ^ 0) ∧
  BitMask_mask (build bar_name_def) (KStr "A|B") = Raise (KeyError (KStr "A")).
Proof.
  split; [vm_compute; reflexivity|]. split; [eexists; vm_compute; reflexivity|].
  repeat split; vm_compute; reflexivity.
Qed.

(** C5 on [ccdmask]: [COSMIC|SATURATED]. *)
Lemma mask_combination_witness :
  ∃ a b, BitMask_mask ccdmask (KStr "COSMIC") = Ok a ∧
         BitMask_mask ccdmask (KStr "SATURATED") = Ok b ∧
         BitMask_mask ccdmask (KStr "COSMIC|SATURATED") = Ok (Z.lor a b).
Proof.
  exact (mask_combination ccdmask "COSMIC" "SATURATED"
           ccdmask_registered_COSMIC ccdmask_registered_SATURATED
           eq_refl eq_refl).
Defined.

(** C6 on [ccdmask] and [COSMIC]. *)
Lemma name_number_roundtrip_witness :
  ∃ k, BitMask_bitnum ccdmask (KStr "COSMIC") = Ok k ∧
       BitMask_bitname ccdmask (KInt k) = Ok "COSMIC"%string.
Proof.
  exact (name_number_roundtrip int_attrs "ccdmask" (table ccdmask_entries)
           ccdmask_entries ccdmask "COSMIC"
           (ccdmask_table _) ccdmask_built
           ccdmask_names_distinct ccdmask_positions_distinct
           ccdmask_registered_COSMIC).
Defined.

(** C9 on [ccdmask] and [COSMIC]. *)
Lemma dual_key_equivalence_witness :
  ∃ b k, BitMask_getitem ccdmask (KStr "COSMIC") = Ok b ∧
         BitMask_bitnum ccdmask (KStr "COSMIC") = Ok k ∧
         BitMask_getitem ccdmask (KInt k) = Ok b.
Proof.
  exact (dual_key_equivalence int_attrs "ccdmask" (table ccdmask_entries)
           ccdmask_entries ccdmask "COSMIC"
           (ccdmask_table _) ccdmask_built ccdmask_positions_distinct
           ccdmask_registered_COSMIC).
Defined.

(** C9 as stated fails when two entries share a bit position: the registry
    of [A] and [B], both at position 0, is built; [self["A"]] is the
    definition named [A], its bit number is 0, and [self[0]] is the
    definition named [B]. *)
Lemma shared_position_two_definitions :
  BitMask_init int_attrs "ccdmask" (table shared_position_def)
    = Ok (build shared_position_def) ∧
  BitMask_bitnum (build shared_position_def) (KStr "A") = Ok 0 ∧
  name <$> _bits (build shared_position_def) !! KStr "A" = Some "A"%string ∧
  name <$> _bits (build shared_position_def) !! KInt 0 = Some "B"%string ∧
  BitMask_getitem (build shared_position_def) (KStr "A") ≠
  BitMask_getitem (build shared_position_def) (KInt 0).
Proof.
  split; [vm_compute; reflexivity|]. split; [vm_compute; reflexivity|].
  split; [vm_compute; reflexivity|]. split; [vm_compute; reflexivity|].
  vm_compute. discriminate.
Qed.

(** C2 on a table whose second entry has the extra key [mask]. *)
Lemma reserved_key_rejected_witness :
  ∃ e, BitMask_init int_attrs "ccdmask" (table reserved_key_def) = Raise e ∧
       is_validation_error e = true.
Proof.
  refine (reserved_key_rejected int_attrs "ccdmask" (table reserved_key_def)
            reserved_key_def
            (Entry "HOT" 1 "Hot pixel" [PyDict [("mask"%string, PyInt 7)]])
            [("mask"%string, PyInt 7)] "mask" (ccdmask_table _) _ eq_refl _ _).
  - right. left.
  - left.
  - do 2 right. left.
Defined.

(** C7 on [_baddef1] of the tests, whose second entry has the extra [1]. *)
Lemma malformed_extra_rejected_witness :
  ∃ e, BitMask_init int_attrs "ccdmask" (table baddef1) = Raise e ∧
       is_validation_error e = true.
Proof.
  refine (malformed_extra_rejected int_attrs "ccdmask" (table baddef1) baddef1
            (Entry "HOT" 1 "Hot pixel" [PyInt 1]) (PyInt 1)
            (ccdmask_table _) _ eq_refl _).
  - right. left.
  - discriminate.
Defined.

(** C10 on the case of the tests: the extra key [real]. *)
Lemma taken_attribute_rejected_witness :
  ∃ e, BitMask_init int_attrs "ccdmask" (table int_key_def) = Raise e.
Proof.
  refine (taken_attribute_rejected int_attrs "ccdmask" (table int_key_def)
            int_key_def
            (Entry "BAD" 0 "comment" [PyDict [("real"%string, PyStr "foo")]])
            [("real"%string, PyStr "foo")] "real" (ccdmask_table _) _ eq_refl _ _).
  - left.
  - left.
  - right. left. reflexivity.
Defined.

(** C8 on [ccdmask]. *)
Lemma names_all_ascending_witness :
  ∃ ks ns,
    BitMask_names ccdmask None = Some ns ∧
    StronglySorted Z.lt ks ∧
    (∀ k, k ∈ ks ↔ ∃ x, x ∈ ccdmask_entries ∧ Z.of_N (x_bitnum x) = k) ∧
    Forall2 (λ k n, BitMask_bitname ccdmask (KInt k) = Ok n ∧
                    ∃ x, x ∈ ccdmask_entries ∧ Z.of_N (x_bitnum x) = k ∧
                         x_name x = n)
            ks ns ∧
    (∀ n, n ∈ ns ↔ registered ccdmask n) ∧
    (∀ x, x ∈ ccdmask_entries → x_name x ∈ ns) ∧
    (∀ nm' bitdefs' xs' R',
       bitdefs' !! nm' = Some xs' →
       BitMask_init int_attrs nm' bitdefs' = Ok R' →
       xs' ≡ₚ ccdmask_entries →
       BitMask_names R' None = Some ns).
Proof.
  exact (names_all_ascending int_attrs "ccdmask" (table ccdmask_entries)
           ccdmask_entries ccdmask (ccdmask_table _) ccdmask_built
           ccdmask_positions_distinct).
Defined.

(** C8 as stated fails when two entries share a bit position: in the
    registry of [A] and [B], both at position 0, the name [A] is
    registered and [names()] is [['B']]; with the two entries in the other
    order, [names()] is [['A']]. *)
Lemma names_omits_shared_position :
  BitMask_init int_attrs "ccdmask" (table shared_position_def)
    = Ok (build shared_position_def) ∧
  registered (build shared_position_def) "A" ∧
  BitMask_names (build shared_position_def) None = Some ["B"%string] ∧
  BitMask_init int_attrs "ccdmask" (table shared_position_swapped)
    = Ok (build shared_position_swapped) ∧
  shared_position_swapped ≡ₚ shared_position_def ∧
  BitMask_names (build shared_position_swapped) None = Some ["A"%string].
Proof.
  split; [vm_compute; reflexivity|]. split; [eexists; vm_compute; reflexivity|].
  split; [vm_compute; reflexivity|]. split; [vm_compute; reflexivity|].
  split; [apply Permutation_swap|vm_compute; reflexivity].
Qed.

(** [names()] on the table with a shared position: one name for the one
    bit number. *)
Lemma names_one_per_bit_number_witness :
  ∃ ks ns,
    BitMask_names (build shared_position_def) None = Some ns ∧
    StronglySorted Z.lt ks ∧
    (∀ k, k ∈ ks ↔
          ∃ x, x ∈ shared_position_def ∧ Z.of_N (x_bitnum x) = k) ∧
    Forall2 (λ k n, BitMask_bitname (build shared_position_def) (KInt k)
                      = Ok n ∧
                    ∃ x, x ∈ shared_position_def ∧
                         Z.of_N (x_bitnum x) = k ∧ x_name x = n)
            ks ns.
Proof.
  refine (names_one_per_bit_number int_attrs "ccdmask"
            (table shared_position_def) shared_position_def
            (build shared_position_def) (ccdmask_table _) _).
  vm_compute. reflexivity.
Defined.

(** Decode correctness on [ccdmask] and the mask of the tests,
    [COSMIC | BAD | 2**13]. *)
Lemma names_in_mask_correct_witness :
  BitMask_names ccdmask (Some 8209) = Some (names_in_mask_spec ccdmask 8209).
Proof.
  apply (names_in_mask_correct ccdmask 8209); [lia|lia].
Defined.

(** The documented results on [ccdmask]. *)
Example ccdmask_names :
  BitMask_names ccdmask None
  = Some ["BAD"; "HOT"; "DEAD"; "SATURATED"; "COSMIC"]%string.
Proof. vm_compute. reflexivity. Qed.

Example ccdmask_names_3 :
  BitMask_names ccdmask (Some 3) = Some ["BAD"; "HOT"]%string.
Proof. vm_compute. reflexivity. Qed.

Example ccdmask_names_unknown :
  BitMask_names ccdmask (Some 8209)
  = Some ["BAD"; "COSMIC"; "UNKNOWN13"]%string.
Proof. vm_compute. reflexivity. Qed.

Example ccdmask_names_8 :
  BitMask_names ccdmask (Some 8) = Some [] ∧
  names_in_mask_spec ccdmask 8 = ["SATURATED"]%string.
Proof. split; vm_compute; reflexivity. Qed.

Example ccdmask_mask_or :
  BitMask_mask ccdmask (KStr "COSMIC|SATURATED") = Ok 24.
Proof. vm_compute. reflexivity. Qed.

Example ccdmask_repr_line :
  repr_line py_repr
    {| value := 2; name := "HOT"; bitnum := 1; mask := 2;
       comment := "Hot pixel"; _extra := [("blat"%string, PyStr "foo")];
       extra_attrs := [("blat"%string, PyStr "foo")] |}
  = ("  - [HOT,              1, " +:+ dquote +:+ "Hot pixel" +:+ dquote +:+
     ", {'blat': 'foo'}]")%string.
Proof. vm_compute. reflexivity. Qed.

(** * Further properties of the code *)

Section Construction.

(** The attributes of [int] objects, as in the definitions. *)
Variable int_hasattr : string → bool.

(** ** When construction succeeds *)

Lemma hasattr_mono set_keys k :
  hasattr int_hasattr set_keys k = false →
  hasattr int_hasattr [] k = false ∧ k ∉ set_keys.
Proof.
  unfold hasattr. intros [[Hown Hset]%orb_false_iff Hint]%orb_false_iff.
  split.
  - apply orb_false_iff. split; [|done]. apply orb_false_iff. split; [done|].
    apply bool_decide_eq_false. by intros ?%elem_of_nil.
  - by apply bool_decide_eq_false in Hset.
Qed.


(** The loop of [__new__] ends without raising exactly on the mappings
    whose keys are new to the object and to each other, and then it has
    added every item. *)
Lemma set_extras_Ok bitname items d d' :
  set_extras int_hasattr bitname items d = Ok d' →
  d' = d ++ items ∧ NoDup items.*1 ∧
  ∀ k, k ∈ items.*1 → hasattr int_hasattr [] k = false ∧ k ∉ d.*1.
Proof.
  revert d. induction items as [|[k v] items IH]; intros d; simpl.
  - intros [= <-]. rewrite app_nil_r. split; [done|]. split; [constructor|].
    by intros k ?%elem_of_nil.
  - destruct (hasattr int_hasattr (d.*1) k) eqn:Hh; [done|].
    intros (-> & Hnd & Hkeys)%IH.
    apply hasattr_mono in Hh as [Hfresh Hk].
    split; [by rewrite <- app_assoc|]. split.
    + constructor; [|done]. intros Hin. destruct (Hkeys _ Hin) as [_ Hout].
      apply Hout. rewrite fmap_app. apply elem_of_app. right. simpl. left.
    + intros k' [->|Hin]%elem_of_cons; [done|].
      destruct (Hkeys _ Hin) as [? Hout]. split; [done|].
      intros Hd. apply Hout. rewrite fmap_app. apply elem_of_app. by left.
Qed.


(** One step of [__init__] ends without raising exactly on the accepted
    entries, and then it has stored the definition the entry stands for
    under the name and under the number. *)
Lemma init_step_entry x bits bits' :
  init_step int_hasattr x bits = Ok bits' →
  entry_accepted int_hasattr x ∧
  bits' = <[KInt (Z.of_N (x_bitnum x)) := entry_bit x]>
            (<[KStr (x_name x) := entry_bit x]> bits).
Proof.
  unfold init_step, _MaskBit_new, entry_accepted, entry_bit, entry_extra.
  intros (extra & Hextra & (bit & Hbit & Hrest)%bind_Ok)%bind_Ok.
  apply bind_Ok in Hbit as (d & Hd & [= <-]).
  apply set_extras_Ok in Hd as (-> & Hnd & Hkeys). simpl in *.
  apply bind_Ok in Hrest as (same & Hsame & [= <-]).
  apply getitem_Ok in Hsame. rewrite lookup_insert_eq in Hsame.
  injection Hsame as <-.
  destruct (x_rest x) as [|x3 [|x4 rest]].
  - injection Hextra as <-. done.
  - destruct x3; try done. injection Hextra as <-. split; [|done].
    intros v [= <-]. exists d. split; [done|]. split; [done|].
    intros k Hk. by destruct (Hkeys k Hk).
  - injection Hextra as <-. split; [by intros v ?|by destruct x3].
Qed.


Lemma init_loop_accepted xs bits bits' :
  init_loop int_hasattr xs bits = Ok bits' →
  ∀ x, x ∈ xs → entry_accepted int_hasattr x.
Proof.
  revert bits. induction xs as [|y xs IH]; intros bits; simpl.
  - by intros _ x ?%elem_of_nil.
  - intros (b1 & [Hy _]%init_step_entry & Hloop)%bind_Ok x
      [->|Hx]%elem_of_cons; [done|by eapply IH].
Qed.







(** ** Later entries replace earlier ones *)

Lemma init_loop_app xs ys bits :
  init_loop int_hasattr (xs ++ ys) bits =
  let* bits' := init_loop int_hasattr xs bits in
  init_loop int_hasattr ys bits'.
Proof.
  revert bits. induction xs as [|x xs IH]; intros bits; simpl; [done|].
  destruct (init_step int_hasattr x bits); simpl; [apply IH|done].
Qed.

Lemma init_loop_keeps_str xs bits bits' s :
  init_loop int_hasattr xs bits = Ok bits' →
  (∀ y, y ∈ xs → x_name y ≠ s) →
  bits' !! KStr s = bits !! KStr s.
Proof.
  revert bits. induction xs as [|x xs IH]; intros bits; simpl.
  - by intros [= <-].
  - intros (b1 & [_ ->]%init_step_entry & Hloop)%bind_Ok Hne.
    rewrite (IH _ Hloop) by (intros y Hy; apply Hne; by right).
    rewrite lookup_insert_ne by done.
    rewrite lookup_insert_ne; [done|]. intros [= Heq]. by apply (Hne x); [left|].
Qed.

Lemma init_loop_keeps_int xs bits bits' k :
  init_loop int_hasattr xs bits = Ok bits' →
  (∀ y, y ∈ xs → Z.of_N (x_bitnum y) ≠ k) →
  bits' !! KInt k = bits !! KInt k.
Proof.
  revert bits. induction xs as [|x xs IH]; intros bits; simpl.
  - by intros [= <-].
  - intros (b1 & [_ ->]%init_step_entry & Hloop)%bind_Ok Hne.
    rewrite (IH _ Hloop) by (intros y Hy; apply Hne; by right).
    rewrite lookup_insert_ne.
    + by rewrite lookup_insert_ne.
    + intros [= Heq]. by apply (Hne x); [left|].
Qed.

Lemma dict_get_elem (d : list (string * pyvalue)) k v :
  NoDup d.*1 → (k, v) ∈ d → dict_get k d = Some v.
Proof.
  induction d as [|[k' v'] d IH]; simpl; [by intros _ ?%elem_of_nil|].
  intros [Hk' Hnd]%NoDup_cons [[= -> ->]|Hin]%elem_of_cons.
  - by rewrite String.eqb_refl.
  - destruct (String.eqb_spec k' k) as [->|_]; [|by apply IH].
    destruct Hk'. by apply (list_elem_of_fmap_2 fst d (k, v)).
Qed.

Lemma entry_extra_NoDup x :
  entry_accepted int_hasattr x → NoDup (entry_extra x).*1.
Proof.
  unfold entry_accepted, entry_extra. intros Hacc.
  destruct (x_rest x) as [|x3 [|x4 rest]]; [constructor| |destruct x3; constructor].
  destruct (Hacc x3 eq_refl) as (d & -> & Hnd & _). done.
Qed.

(** Lookup by name returns what the last entry of that name declares: its
    bit number, its comment, its extra mapping, every item of which is an
    attribute of the definition. *)
Theorem lookup_by_name_declared nm bitdefs pre x post R :
  bitdefs !! nm = Some (pre ++ x :: post) →
  BitMask_init int_hasattr nm bitdefs = Ok R →
  (∀ y, y ∈ post → x_name y ≠ x_name x) →
  ∃ b, BitMask_getitem R (KStr (x_name x)) = Ok b ∧
       BitMask_getattr R (x_name x) = Ok b ∧
       BitMask_bitnum R (KStr (x_name x)) = Ok (Z.of_N (x_bitnum x)) ∧
       BitMask_comment R (KStr (x_name x)) = Ok (x_comment x) ∧
       value b = 2 ^ Z.of_N (x_bitnum x) ∧
       mask b = 2 ^ Z.of_N (x_bitnum x) ∧
       _extra b = entry_extra x ∧
       ∀ k v, (k, v) ∈ entry_extra x → _MaskBit_extra_attr b k = Some v.
Proof.
  intros Hxs (xs & Hxs' & Hloop & _)%BitMask_init_Ok Hlast.
  assert (xs = pre ++ x :: post) as -> by congruence.
  pose proof (init_loop_accepted _ _ _ Hloop x) as Hacc.
  rewrite init_loop_app in Hloop.
  apply bind_Ok in Hloop as (b0 & _ & Hloop). simpl in Hloop.
  apply bind_Ok in Hloop as (b1 & [_ ->]%init_step_entry & Hpost).
  pose proof (init_loop_keeps_str _ _ _ _ Hpost Hlast) as Hb.
  rewrite lookup_insert_ne, lookup_insert_eq in Hb by done.
  exists (entry_bit x).
  unfold BitMask_getitem, BitMask_getattr, BitMask_bitnum, BitMask_comment,
    getitem. rewrite Hb. simpl. repeat (split; [done|]).
  intros k v Hkv. unfold _MaskBit_extra_attr. simpl.
  apply dict_get_elem; [|done]. apply entry_extra_NoDup, Hacc.
  apply elem_of_app. right. left.
Qed.

(** Lookup by number returns what the last entry of that number declares:
    its name, its comment and the mask [2**bitnum]. *)
Theorem lookup_by_number_declared nm bitdefs pre x post R :
  bitdefs !! nm = Some (pre ++ x :: post) →
  BitMask_init int_hasattr nm bitdefs = Ok R →
  (∀ y, y ∈ post → x_bitnum y ≠ x_bitnum x) →
  BitMask_bitname R (KInt (Z.of_N (x_bitnum x))) = Ok (x_name x) ∧
  BitMask_comment R (KInt (Z.of_N (x_bitnum x))) = Ok (x_comment x) ∧
  BitMask_mask R (KInt (Z.of_N (x_bitnum x))) = Ok (2 ^ Z.of_N (x_bitnum x)) ∧
  BitMask_bitnum R (KInt (Z.of_N (x_bitnum x))) = Ok (Z.of_N (x_bitnum x)).
Proof.
  intros Hxs (xs & Hxs' & Hloop & _)%BitMask_init_Ok Hlast.
  assert (xs = pre ++ x :: post) as -> by congruence.
  rewrite init_loop_app in Hloop.
  apply bind_Ok in Hloop as (b0 & _ & Hloop). simpl in Hloop.
  apply bind_Ok in Hloop as (b1 & [_ ->]%init_step_entry & Hpost).
  pose proof (init_loop_keeps_int _ _ _ (Z.of_N (x_bitnum x)) Hpost) as Hb.
  rewrite lookup_insert_eq in Hb.
  unfold BitMask_bitname, BitMask_comment, BitMask_mask, BitMask_bitnum,
    getitem.
  rewrite Hb; [done|]. intros y Hy Heq. apply (Hlast y Hy). by apply N2Z.inj.
Qed.

End Construction.

Section Encoding.

(** The attributes of [int] objects, as in the definitions. *)
Variable int_hasattr : string → bool.

(** ** From a number to its name and back *)

Lemma linked_back_loop xs bits bits' :
  init_loop int_hasattr xs bits = Ok bits' →
  linked_back bits →
  NoDup (x_name <$> xs) →
  (∀ x, x ∈ xs → bits !! KStr (x_name x) = None) →
  linked_back bits'.
Proof.
  revert bits. induction xs as [|x xs IH]; intros bits; simpl.
  - by intros [= <-].
  - intros (b1 & [_ ->]%init_step_entry & Hloop)%bind_Ok Hl Hnd Hfresh.
    apply NoDup_cons in Hnd as [Hx Hnd].
    eapply IH; [done| |done|].
    + intros k b Hb.
      apply lookup_insert_Some in Hb as [[_ <-]|[Hne Hb]].
      * simpl. by rewrite lookup_insert_ne, lookup_insert_eq.
      * rewrite lookup_insert_ne in Hb by done.
        pose proof (Hl _ _ Hb) as Hs.
        assert (name b ≠ x_name x) as Hname.
        { intros Heq. rewrite Heq, Hfresh in Hs; [done|left]. }
        rewrite lookup_insert_ne by done.
        rewrite lookup_insert_ne by congruence. done.
    + intros y Hy.
      assert (x_name y ≠ x_name x) as Hne.
      { intros Heq. apply Hx. rewrite <- Heq. by apply list_elem_of_fmap_2. }
      rewrite lookup_insert_ne by done.
      rewrite lookup_insert_ne by congruence. apply Hfresh. by right.
Qed.

Lemma linked_back_init nm bitdefs xs R :
  bitdefs !! nm = Some xs →
  BitMask_init int_hasattr nm bitdefs = Ok R →
  NoDup (x_name <$> xs) →
  linked_back (_bits R).
Proof.
  intros Hxs (xs' & Hxs' & Hloop & _)%BitMask_init_Ok Hnd.
  assert (xs' = xs) as -> by congruence.
  eapply linked_back_loop; [done| |done|].
  - intros k b. by rewrite lookup_empty.
  - intros. apply lookup_empty.
Qed.

(** In a registry constructed from a table whose entries have pairwise
    distinct names, [bitnum(bitname(k))] is [k] for every registered bit
    number [k], and the mask of [k] is that of its name, [2**k]. *)
Theorem number_name_roundtrip nm bitdefs xs R k :
  bitdefs !! nm = Some xs →
  BitMask_init int_hasattr nm bitdefs = Ok R →
  NoDup (x_name <$> xs) →
  is_Some (_bits R !! KInt k) →
  ∃ n, BitMask_bitname R (KInt k) = Ok n ∧
       BitMask_bitnum R (KStr n) = Ok k ∧
       BitMask_mask R (KInt k) = Ok (2 ^ k) ∧
       (contains bar n = false → BitMask_mask R (KStr n) = Ok (2 ^ k)).
Proof.
  intros Hxs Hinit Hnd [b Hb].
  pose proof (linked_back_init _ _ _ _ Hxs Hinit Hnd _ _ Hb) as Hs.
  destruct (wf_bits_init _ _ _ _ Hinit) as (_ & Hi & Hk).
  destruct (Hk _ _ Hb) as [Hm _]. rewrite (Hi _ _ Hb) in Hm.
  exists (name b). unfold BitMask_bitname, BitMask_bitnum, BitMask_mask, getitem.
  rewrite Hb, Hs. simpl. rewrite (Hi _ _ Hb), Hm. repeat (split; [done|]).
  intros Hbar. rewrite (split_no_sep _ _ Hbar). simpl.
  unfold getitem. rewrite Hs. simpl. by rewrite Hm.
Qed.

(** ** Masks of expressions *)

Lemma mask_loop_first_missing (bits : gmap key _MaskBit) pre p post acc :
  (∀ q, q ∈ pre → is_Some (bits !! KStr q)) →
  bits !! KStr p = None →
  mask_loop bits (pre ++ p :: post) acc = Raise (KeyError (KStr p)).
Proof.
  revert acc. induction pre as [|q pre IH]; intros acc Hpre Hp; simpl.
  - unfold getitem. by rewrite Hp.
  - destruct (Hpre q) as [b Hb]; [left|]. unfold getitem. rewrite Hb. simpl.
    apply IH; [|done]. intros q' Hq'. apply Hpre. by right.
Qed.

(** [mask] of an expression raises [KeyError] for the first of its names,
    from the left, that is not registered; the names after it are not
    looked up. *)
Theorem mask_first_missing (R : BitMask) s pre p post :
  split bar s = pre ++ p :: post →
  (∀ q, q ∈ pre → registered R q) →
  ¬ registered R p →
  BitMask_mask R (KStr s) = Raise (KeyError (KStr p)).
Proof.
  intros Hsplit Hpre Hp. unfold BitMask_mask. rewrite Hsplit.
  apply mask_loop_first_missing; [done|].
  by apply eq_None_not_Some.
Qed.

Lemma mask_loop_bits (bits : gmap key _MaskBit) ps acc :
  wf_bits bits →
  (∀ p, p ∈ ps → is_Some (bits !! KStr p)) →
  0 ≤ acc →
  ∃ m, mask_loop bits ps acc = Ok m ∧ 0 ≤ m ∧
       ∀ j, Z.testbit m j = true ↔
            Z.testbit acc j = true ∨
            ∃ p b, p ∈ ps ∧ bits !! KStr p = Some b ∧ bitnum b = j.
Proof.
  intros (_ & _ & Hk). revert acc.
  induction ps as [|p ps IH]; intros acc Hps Hacc; simpl.
  - exists acc. split; [done|]. split; [done|]. intros j. split; [by left|].
    intros [?|(p & b & ?%elem_of_nil & _)]; done.
  - destruct (Hps p) as [b Hb]; [left|]. unfold getitem. rewrite Hb. simpl.
    destruct (Hk _ _ Hb) as [Hm Hpos].
    destruct (IH (Z.lor acc (mask b))) as (m & -> & Hm0 & Hbits).
    { intros q Hq. apply Hps. by right. }
    { apply Z.lor_nonneg. split; [done|]. rewrite Hm. by apply Z.pow_nonneg. }
    exists m. split; [done|]. split; [done|]. intros j. rewrite Hbits.
    rewrite Z.lor_spec, orb_true_iff, Hm, Z.pow2_bits_eqb by done.
    rewrite Z.eqb_eq. split.
    + intros [[?|Hj]|(q & b' & Hq & ?)].
      * by left.
      * right. exists p, b. split; [left|done].
      * right. exists q, b'. split; [by right|done].
    + intros [?|(q & b' & [->|Hq]%elem_of_cons & Hb' & Hj)].
      * left. by left.
      * left. right. congruence.
      * right. eauto.
Qed.

(** In a constructed registry, [mask] of an expression all of whose names
    are registered is the non-negative integer whose set bits are exactly
    the bit numbers of those names, however often and in whatever order
    they are written. *)
Theorem mask_expression_bits nm bitdefs R s :
  BitMask_init int_hasattr nm bitdefs = Ok R →
  (∀ p, p ∈ split bar s → registered R p) →
  ∃ m, BitMask_mask R (KStr s) = Ok m ∧ 0 ≤ m ∧
       ∀ j, Z.testbit m j = true ↔
            ∃ p, p ∈ split bar s ∧ BitMask_bitnum R (KStr p) = Ok j.
Proof.
  intros Hinit Hreg.
  destruct (mask_loop_bits (_bits R) (split bar s) 0) as (m & Hm & Hm0 & Hbits);
    [by eapply wf_bits_init|done|done|].
  exists m. split; [done|]. split; [done|]. intros j. rewrite Hbits.
  rewrite Z.bits_0. split.
  - intros [?|(p & b & Hp & Hb & Hj)]; [done|].
    exists p. split; [done|]. unfold BitMask_bitnum, getitem. rewrite Hb.
    simpl. by rewrite Hj.
  - intros (p & Hp & Hj). right. unfold BitMask_bitnum, getitem in Hj.
    destruct (_bits R !! KStr p) as [b|] eqn:Hb; [|done].
    injection Hj as Hj. eauto.
Qed.

End Encoding.

(** ** Decoding: edge cases and round trips *)

(** [names(mask)] ends with a list for every integer mask, and the list is
    empty for every mask that is zero or negative: the loop's guard
    [bitnum**2 <= mask] fails at once for a negative mask, whatever bits
    its two's complement has. *)
Theorem names_of_nonpositive_mask (R : BitMask) m :
  is_Some (BitMask_names R (Some m)) ∧
  (m ≤ 0 → BitMask_names R (Some m) = Some []).
Proof.
  split; [apply names_terminates|]. intros Hm.
  destruct (decide (m = 0)) as [->|Hne]; [reflexivity|].
  unfold BitMask_names.
  replace (Z.to_nat (Z.sqrt m) + 2)%nat with (S (Z.to_nat (Z.sqrt m) + 1))
    by lia.
  simpl. replace (0 ^ 2 <=? m) with false; [done|].
  symmetry. apply Z.leb_gt. lia.
Qed.

(** Decoding gives the labels of the set bits, at every non-negative mask
    but 8. *)
Lemma names_labels_set_positions (R : BitMask) m :
  0 ≤ m → m ≠ 8 →
  BitMask_names R (Some m) = Some (label (_bits R) <$> set_positions m).
Proof.
  intros Hm H8. rewrite (names_by_sqrt R m Hm). unfold set_positions.
  do 2 f_equal.
  pose proof (Z.sqrt_nonneg m). pose proof (Z.log2_nonneg m).
  set (P := λ k, Z.testbit m k = true).
  trans (filter P (seqZ 0 (Z.max (Z.sqrt m) (Z.log2 m) + 1))).
  - symmetry. apply filter_seqZ_extend; [lia|].
    intros k Hk Hbit. assert (k ≤ Z.sqrt m); [|lia].
    apply set_bit_below_sqrt; [done|done|lia|exact Hbit].
  - apply filter_seqZ_extend; [lia|].
    intros k Hk Hbit. unfold P in Hbit.
    rewrite Z.bits_above_log2 in Hbit by lia. done.
Qed.

Lemma elem_of_set_positions_testbit m k :
  0 ≤ m → k ∈ set_positions m ↔ 0 ≤ k ∧ Z.testbit m k = true.
Proof.
  intros Hm. unfold set_positions. rewrite list_elem_of_filter, elem_of_seqZ.
  split; [intros [? [? ?]]; done|]. intros [Hk Hbit]. split; [done|].
  split; [lia|]. destruct (decide (k ≤ Z.log2 m)); [lia|].
  rewrite Z.bits_above_log2 in Hbit by lia. done.
Qed.

Lemma set_positions_pow2 k : 0 ≤ k → set_positions (2 ^ k) = [k].
Proof.
  intros Hk. apply strictly_sorted_unique.
  - apply set_positions_ascending.
  - repeat constructor.
  - intros j. rewrite elem_of_set_positions_testbit by (by apply Z.pow_nonneg).
    rewrite Z.pow2_bits_eqb, Z.eqb_eq, list_elem_of_singleton by done.
    split; [by intros [_ ->]|by intros ->].
Qed.

Section RoundTrips.

(** The attributes of [int] objects, as in the definitions. *)
Variable int_hasattr : string → bool.

(** In a registry constructed from a table whose entries have pairwise
    distinct bit positions, decoding the mask of a registered name without
    ['|'] gives back that name alone, unless its bit number is 3: then the
    mask is 8 and [names] returns the empty list. *)
Theorem names_of_mask_of_name nm bitdefs xs R n :
  bitdefs !! nm = Some xs →
  BitMask_init int_hasattr nm bitdefs = Ok R →
  NoDup (x_bitnum <$> xs) →
  registered R n →
  contains bar n = false →
  ∃ k m, BitMask_bitnum R (KStr n) = Ok k ∧
         BitMask_mask R (KStr n) = Ok m ∧
         (k ≠ 3 → BitMask_names R (Some m) = Some [n]) ∧
         (k = 3 → BitMask_names R (Some m) = Some []).
Proof.
  intros Hxs Hinit Hnd [b Hb] Hbar.
  pose proof (linked_init _ _ _ _ _ Hxs Hinit Hnd _ _ Hb) as Hi.
  destruct (wf_bits_init _ _ _ _ Hinit) as (Hs & _ & Hk).
  destruct (Hs _ _ Hb) as [Hname _]. destruct (Hk _ _ Hb) as [Hm Hpos].
  exists (bitnum b), (2 ^ bitnum b). split; [|split; [|split]].
  - unfold BitMask_bitnum, getitem. by rewrite Hb.
  - rewrite (mask_single R n b Hb Hbar). by rewrite Hm.
  - intros H3. rewrite names_labels_set_positions.
    + rewrite set_positions_pow2 by done. simpl. unfold label.
      by rewrite Hi, Hname.
    + by apply Z.pow_nonneg.
    + intros H8. apply H3. apply (Z.pow_inj_r 2); [lia..|by rewrite H8].
  - intros ->. reflexivity.
Qed.

Lemma split_join (ns : list string) :
  ns ≠ [] → (∀ n, n ∈ ns → contains bar n = false) →
  split bar (join "|" ns) = ns.
Proof.
  induction ns as [|n ns IH]; [done|]. intros _ Hbar.
  destruct ns as [|n' ns].
  - simpl. apply split_no_sep, Hbar. left.
  - change (join "|" (n :: n' :: ns))
      with (n +:+ String bar (join "|" (n' :: ns)))%string.
    rewrite split_app_sep by (apply Hbar; left).
    rewrite IH; [done|done|]. intros q Hq. apply Hbar. by right.
Qed.

(** In a registry constructed from a table whose entries have pairwise
    distinct names without ['|'], encoding what [names] decodes gives the
    mask back: for a positive mask other than 8 all of whose set bits are
    registered, [mask('|'.join(names(m)))] is [m]. *)
Theorem mask_of_names_of_mask nm bitdefs xs R m :
  bitdefs !! nm = Some xs →
  BitMask_init int_hasattr nm bitdefs = Ok R →
  NoDup (x_name <$> xs) →
  (∀ x, x ∈ xs → contains bar (x_name x) = false) →
  0 < m → m ≠ 8 →
  (∀ k, 0 ≤ k → Z.testbit m k = true → is_Some (_bits R !! KInt k)) →
  ∃ ns, BitMask_names R (Some m) = Some ns ∧
        BitMask_mask R (KStr (join "|" ns)) = Ok m.
Proof.
  intros Hxs Hinit Hnd Hbar Hm H8 Hreg.
  pose proof (linked_back_init _ _ _ _ _ Hxs Hinit Hnd) as Hback.
  pose proof (wf_bits_init _ _ _ _ Hinit) as Hwf.
  destruct (BitMask_init_Ok _ _ _ _ Hinit) as (xs' & Hxs' & Hloop & _).
  assert (xs' = xs) as -> by congruence.
  destruct Hwf as (Hs & Hi & Hk).
  set (ns := label (_bits R) <$> set_positions m).
  exists ns. split; [apply names_labels_set_positions; [lia|done]|].
  (* every decoded name is the name of the definition at a set bit *)
  assert (Hns : ∀ p, p ∈ ns ↔
            ∃ k b, 0 ≤ k ∧ Z.testbit m k = true ∧
                   _bits R !! KInt k = Some b ∧ name b = p).
  { intros p. unfold ns. rewrite list_elem_of_fmap. split.
    - intros (k & -> & [Hk0 Hbit]%elem_of_set_positions_testbit); [|lia].
      destruct (Hreg k Hk0 Hbit) as [b Hb]. exists k, b.
      unfold label. by rewrite Hb.
    - intros (k & b & Hk0 & Hbit & Hb & <-). exists k. split.
      + unfold label. by rewrite Hb.
      + apply elem_of_set_positions_testbit; [lia|done]. }
  assert (ns ≠ []) as Hne.
  { assert (label (_bits R) (Z.log2 m) ∈ ns) as Hin.
    { unfold ns. apply list_elem_of_fmap_2.
      apply elem_of_set_positions_testbit; [lia|].
      split; [apply Z.log2_nonneg|by apply Z.bit_log2]. }
    intros Heq. rewrite Heq in Hin. by apply elem_of_nil in Hin. }
  assert (∀ p, p ∈ ns → contains bar p = false) as Hnobar.
  { intros p (k & b & _ & _ & Hb & <-)%Hns.
    destruct (init_loop_from_entry _ _ _ _ _ _ Hloop Hb)
      as [Hemp|(x & Hx & -> & _)]; [by rewrite lookup_empty in Hemp|].
    by apply Hbar. }
  unfold BitMask_mask. rewrite (split_join ns Hne Hnobar).
  destruct (mask_loop_bits (_bits R) ns 0) as (m' & -> & Hm' & Hbits).
  { done. }
  { intros p (k & b & _ & _ & Hb & <-)%Hns. rewrite (Hback _ _ Hb). eauto. }
  { done. }
  f_equal. apply Z.bits_inj'. intros j Hj.
  apply eq_true_iff_eq. rewrite Hbits, Z.bits_0. split.
  - intros [?|(p & b & Hp & Hb & <-)]; [done|].
    apply Hns in Hp as (k & b' & Hk0 & Hbit & Hb' & Hname).
    pose proof (Hback _ _ Hb') as Hb''. rewrite Hname, Hb in Hb''.
    injection Hb'' as ->. by rewrite (Hi _ _ Hb').
  - intros Hbit. right. destruct (Hreg j Hj Hbit) as [b Hb].
    exists (name b), b. split; [|split].
    + apply Hns. eauto 10.
    + exact (Hback _ _ Hb).
    + exact (Hi _ _ Hb).
Qed.

End RoundTrips.

(** ** Rendering *)

Lemma append_assoc (a b c : string) :
  ((a +:+ b) +:+ c = a +:+ (b +:+ c))%string.
Proof.
  induction a as [|x a IH]; [done|].
  change (String x ((a +:+ b) +:+ c) = String x (a +:+ (b +:+ c)))%string.
  by rewrite IH.
Qed.

Lemma append_empty_r (a : string) : (a +:+ EmptyString)%string = a.
Proof.
  induction a as [|x a IH]; [done|].
  change (String x (a +:+ EmptyString) = String x a)%string. by rewrite IH.
Qed.

Lemma zeros_snoc j : (zeros j +:+ "0")%string = zeros (S j).
Proof.
  induction j as [|j IH]; [done|].
  change (String "0" (zeros j +:+ "0") = String "0" (zeros (S j)))%string.
  by rewrite IH.
Qed.

Lemma hex_digit_pow2_small r : 0 ≤ r < 4 → (2 ^ r <? 16) = true.
Proof.
  intros Hr. assert (r = 0 ∨ r = 1 ∨ r = 2 ∨ r = 3) as [->|[->|[->| ->]]]
    by lia; reflexivity.
Qed.

(** The hexadecimal digits of a power of two: the digit of [2^r] and [j]
    zeros for the exponent [4 j + r]. *)
Lemma hex_loop_pow2 j :
  ∀ fuel r, 0 ≤ r < 4 → (j < fuel)%nat →
  hex_loop fuel (2 ^ (4 * Z.of_nat j + r)) =
  (hex_digit (2 ^ r) +:+ zeros j)%string.
Proof.
  induction j as [|j IH]; intros fuel r Hr Hfuel;
    (destruct fuel as [|fuel]; [lia|]); simpl hex_loop.
  - replace (4 * Z.of_nat 0 + r) with r by lia.
    rewrite (hex_digit_pow2_small r Hr). simpl. by rewrite append_empty_r.
  - replace (4 * Z.of_nat (S j) + r) with (4 + (4 * Z.of_nat j + r)) by lia.
    rewrite Z.pow_add_r by lia. change (2 ^ 4) with 16.
    set (q := 2 ^ (4 * Z.of_nat j + r)).
    assert (0 < q) by (apply Z.pow_pos_nonneg; lia).
    replace (16 * q <? 16) with false by (symmetry; apply Z.ltb_ge; lia).
    rewrite (Z.mul_comm 16 q), Z.div_mul, Z.mod_mul by done.
    unfold q. rewrite IH by (done || lia).
    rewrite append_assoc. by rewrite zeros_snoc.
Qed.

Lemma format_X_pow2 k :
  0 ≤ k →
  format_X (2 ^ k) =
  (hex_digit (2 ^ (k mod 4)) +:+ zeros (Z.to_nat (k / 4)))%string.
Proof.
  intros Hk. unfold format_X.
  assert (0 < 2 ^ k) by (by apply Z.pow_pos_nonneg).
  replace (2 ^ k <? 0) with false by (symmetry; apply Z.ltb_ge; lia).
  rewrite Z.log2_pow2 by done.
  pose proof (Z.mod_pos_bound k 4). pose proof (Z.div_mod k 4).
  assert (0 ≤ k / 4) by (apply Z.div_pos; lia).
  replace k with (4 * Z.of_nat (Z.to_nat (k / 4)) + k mod 4) at 2 by lia.
  apply hex_loop_pow2; lia.
Qed.

Section Definitions.

(** The attributes of [int] objects, as in the definitions. *)
Variable int_hasattr : string → bool.

(** Every definition of the table after the loop was there before it or
    is the one an entry stands for. *)
Lemma init_loop_entry_bits xs bits bits' k b :
  init_loop int_hasattr xs bits = Ok bits' →
  bits' !! k = Some b →
  bits !! k = Some b ∨ ∃ x, x ∈ xs ∧ b = entry_bit x.
Proof.
  revert bits. induction xs as [|x xs IH]; intros bits; simpl.
  - intros [= <-]. by left.
  - intros (b1 & [_ ->]%init_step_entry & Hloop)%bind_Ok Hb.
    destruct (IH _ Hloop Hb) as [Hb1|(y & Hy & ?)].
    + apply lookup_insert_Some in Hb1 as [[_ <-]|[_ Hb1]].
      { right. exists x. split; [left|done]. }
      apply lookup_insert_Some in Hb1 as [[_ <-]|[_ Hb1]].
      { right. exists x. split; [left|done]. }
      by left.
    + right. exists y. split; [by right|done].
Qed.

Lemma init_entry_bits nm bitdefs xs R k b :
  bitdefs !! nm = Some xs →
  BitMask_init int_hasattr nm bitdefs = Ok R →
  _bits R !! k = Some b →
  ∃ x, x ∈ xs ∧ b = entry_bit x.
Proof.
  intros Hxs (xs' & Hxs' & Hloop & _)%BitMask_init_Ok Hb.
  assert (xs' = xs) as -> by congruence.
  destruct (init_loop_entry_bits _ _ _ _ _ Hloop Hb) as [Hemp|?]; [|done].
  by rewrite lookup_empty in Hemp.
Qed.

(** [str] of a definition of a constructed registry: the name in a field
    of sixteen, the bit number, and the mask in hexadecimal, which is one
    of the digits 1, 2, 4, 8 followed by [bitnum // 4] zeros. *)
Theorem str_of_definition nm bitdefs R k b :
  BitMask_init int_hasattr nm bitdefs = Ok R →
  _bits R !! k = Some b →
  _MaskBit_str b =
  (ljust 16 (name b) +:+ " bit " +:+ str_int (bitnum b) +:+ " mask 0x" +:+
   hex_digit (2 ^ (bitnum b mod 4)) +:+ zeros (Z.to_nat (bitnum b / 4)) +:+
   " - " +:+ comment b)%string.
Proof.
  intros Hinit Hb.
  destruct (wf_bits_init _ _ _ _ Hinit) as (_ & _ & Hk).
  destruct (Hk _ _ Hb) as [Hm Hpos].
  unfold _MaskBit_str. rewrite Hm, format_X_pow2 by done.
  by rewrite append_assoc.
Qed.

(** [__getattr__], the hook behind [self.NAME] for a name that is no
    attribute of the registry object itself: for a registered name it
    returns the definition [self['NAME']], an integer equal to
    [mask('NAME')]; for any other name it raises [AttributeError] where
    [self['NAME']] raises [KeyError]. *)
Theorem getattr_is_mask nm bitdefs R n :
  BitMask_init int_hasattr nm bitdefs = Ok R →
  (registered R n →
   ∃ b, BitMask_getattr R n = Ok b ∧
        BitMask_getitem R (KStr n) = Ok b ∧
        value b = 2 ^ bitnum b ∧
        BitMask_bitnum R (KStr n) = Ok (bitnum b) ∧
        (contains bar n = false → BitMask_mask R (KStr n) = Ok (value b))) ∧
  (¬ registered R n →
   BitMask_getattr R n =
     Raise (AttributeError ("Unknown mask bit name " +:+ n)%string) ∧
   BitMask_getitem R (KStr n) = Raise (KeyError (KStr n))).
Proof.
  intros Hinit. split.
  - intros [b Hb].
    destruct (BitMask_init_Ok _ _ _ _ Hinit) as (xs & Hxs & _).
    destruct (init_entry_bits _ _ _ _ _ _ Hxs Hinit Hb) as (x & _ & Hx).
    exists b. unfold BitMask_getattr, BitMask_getitem, BitMask_bitnum, getitem.
    rewrite Hb. simpl. repeat (split; [by rewrite ?Hx|]).
    intros Hbar. pose proof (mask_single R n b Hb Hbar) as Hm.
    unfold BitMask_mask in Hm. rewrite Hm. by rewrite Hx.
  - intros Hn%eq_None_not_Some.
    unfold BitMask_getattr, BitMask_getitem, getitem. by rewrite Hn.
Qed.

(** ** Serialization does not depend on the order of the table *)

Lemma int_lookup_unique nm bitdefs xs R x :
  bitdefs !! nm = Some xs →
  BitMask_init int_hasattr nm bitdefs = Ok R →
  NoDup (x_bitnum <$> xs) →
  x ∈ xs →
  _bits R !! KInt (Z.of_N (x_bitnum x)) = Some (entry_bit x).
Proof.
  intros Hxs Hinit Hnd Hx.
  destruct (BitMask_init_Ok _ _ _ _ Hinit) as (xs' & Hxs' & Hloop & _).
  assert (xs' = xs) as -> by congruence.
  destruct (proj2 (init_loop_int_keys _ _ _ _ (Z.of_N (x_bitnum x)) Hloop))
    as [b Hb]; [right; eauto|].
  destruct (init_entry_bits _ _ _ _ _ _ Hxs Hinit Hb) as (y & Hy & ->).
  destruct (wf_bits_init _ _ _ _ Hinit) as (_ & Hi & _).
  apply Hi in Hb as Hp. simpl in Hp.
  by rewrite (entry_at_position xs y x Hnd Hy Hx Hp) in Hb.
Qed.

Lemma mapM_ext_in {A B} (f g : A → option B) (l : list A) :
  (∀ x, x ∈ l → f x = g x) → mapM f l = mapM g l.
Proof.
  intros Hfg. apply Forall2_mapM_ext.
  induction l as [|x l IH]; constructor.
  - apply Hfg. left.
  - apply IH. intros y Hy. apply Hfg. by right.
Qed.

(** The text of [repr] is the same for every order of the entries of a
    table with pairwise distinct bit positions (and it is a text: no lookup
    of [__repr__] fails). *)
Theorem repr_order_independent (py_str : pyvalue → string)
    nm bitdefs xs R bitdefs' xs' R' :
  bitdefs !! nm = Some xs →
  BitMask_init int_hasattr nm bitdefs = Ok R →
  bitdefs' !! nm = Some xs' →
  BitMask_init int_hasattr nm bitdefs' = Ok R' →
  xs' ≡ₚ xs →
  NoDup (x_bitnum <$> xs) →
  is_Some (BitMask_repr py_str R) ∧
  BitMask_repr py_str R' = BitMask_repr py_str R.
Proof.
  intros Hxs Hinit Hxs' Hinit' Hperm Hnd.
  assert (NoDup (x_bitnum <$> xs')) as Hnd' by (by rewrite Hperm).
  destruct (BitMask_init_Ok _ _ _ _ Hinit) as (? & ? & Hloop & Hname).
  destruct (BitMask_init_Ok _ _ _ _ Hinit') as (? & ? & Hloop' & Hname').
  simplify_eq.
  assert (Hkeys : ∀ k, _bits R' !! KInt k = _bits R !! KInt k).
  { intros k. destruct (_bits R !! KInt k) as [b|] eqn:Hb.
    - assert (is_Some (_bits R !! KInt k)) as Hsome by (by rewrite Hb).
      apply (init_loop_int_keys _ _ _ _ k Hloop) in Hsome
        as [[? Hemp]|(x & Hx & <-)]; [by rewrite lookup_empty in Hemp|].
      rewrite (int_lookup_unique _ _ _ _ x Hxs Hinit Hnd Hx) in Hb.
      injection Hb as <-.
      apply (int_lookup_unique _ _ _ _ x Hxs' Hinit' Hnd').
      by rewrite Hperm.
    - apply eq_None_not_Some. intros Hsome.
      apply (init_loop_int_keys _ _ _ _ k Hloop') in Hsome
        as [[? Hemp]|(x & Hx & Hk)]; [by rewrite lookup_empty in Hemp|].
      rewrite Hperm in Hx.
      assert (is_Some (_bits R !! KInt k)) as [? Hb'].
      { apply (init_loop_int_keys _ _ _ _ k Hloop). right. eauto. }
      by rewrite Hb in Hb'. }
  assert (sorted (bitnums (_bits R')) = sorted (bitnums (_bits R))) as Hks.
  { apply strictly_sorted_unique; [apply sorted_strict, NoDup_bitnums..|].
    intros k. by rewrite !sorted_elem_of, !elem_of_bitnums, Hkeys. }
  split.
  - unfold BitMask_repr.
    destruct (mapM_is_Some_2 (λ n, repr_line py_str <$> _bits R !! KInt n)
                (sorted (bitnums (_bits R)))) as [lines ->]; [|by eexists].
    apply Forall_forall. intros k Hk. simpl.
    apply sorted_elem_of, elem_of_bitnums in Hk as [b ->]. by eexists.
  - unfold BitMask_repr. rewrite Hks, Hname'.
    by rewrite (mapM_ext_in _ (λ n, repr_line py_str <$> _bits R !! KInt n))
      by (intros k _; by rewrite Hkeys).
Qed.

End Definitions.

(** * The further properties on the registry of the test suite *)

Lemma after_hot_other_names y :
  y ∈ drop 2 ccdmask_entries → x_name y ≠ x_name hot_entry.
Proof.
  revert y. apply Forall_forall. apply (bool_decide_unpack _).
  vm_compute. exact I.
Qed.

Lemma after_hot_other_numbers y :
  y ∈ drop 2 ccdmask_entries → x_bitnum y ≠ x_bitnum hot_entry.
Proof.
  revert y. apply Forall_forall. apply (bool_decide_unpack _).
  vm_compute. exact I.
Qed.

(** Lookup by name on [ccdmask] and [HOT], the entry with an extra. *)
Lemma lookup_by_name_declared_witness :
  ∃ b, BitMask_getitem ccdmask (KStr "HOT") = Ok b ∧
       BitMask_getattr ccdmask "HOT" = Ok b ∧
       BitMask_bitnum ccdmask (KStr "HOT") = Ok 1 ∧
       BitMask_comment ccdmask (KStr "HOT") = Ok "Hot pixel"%string ∧
       value b = 2 ∧
       mask b = 2 ∧
       _extra b = [("blat"%string, PyStr "foo")] ∧
       ∀ k v, (k, v) ∈ [("blat"%string, PyStr "foo")] →
              _MaskBit_extra_attr b k = Some v.
Proof.
  exact (lookup_by_name_declared int_attrs "ccdmask" (table ccdmask_entries)
           (take 1 ccdmask_entries) hot_entry (drop 2 ccdmask_entries) ccdmask
           (ccdmask_table _) ccdmask_built after_hot_other_names).
Defined.

(** Lookup by number on [ccdmask] and 1. *)
Lemma lookup_by_number_declared_witness :
  BitMask_bitname ccdmask (KInt 1) = Ok "HOT"%string ∧
  BitMask_comment ccdmask (KInt 1) = Ok "Hot pixel"%string ∧
  BitMask_mask ccdmask (KInt 1) = Ok 2 ∧
  BitMask_bitnum ccdmask (KInt 1) = Ok 1.
Proof.
  exact (lookup_by_number_declared int_attrs "ccdmask"
           (table ccdmask_entries)
           (take 1 ccdmask_entries) hot_entry (drop 2 ccdmask_entries) ccdmask
           (ccdmask_table _) ccdmask_built after_hot_other_numbers).
Defined.

Lemma ccdmask_number_4 : is_Some (_bits ccdmask !! KInt 4).
Proof. eexists. vm_compute. reflexivity. Qed.

(** From the number 4 of [ccdmask] to its name and back. *)
Lemma number_name_roundtrip_witness :
  ∃ n, BitMask_bitname ccdmask (KInt 4) = Ok n ∧
       BitMask_bitnum ccdmask (KStr n) = Ok 4 ∧
       BitMask_mask ccdmask (KInt 4) = Ok (2 ^ 4) ∧
       (contains bar n = false → BitMask_mask ccdmask (KStr n) = Ok (2 ^ 4)).
Proof.
  exact (number_name_roundtrip int_attrs "ccdmask" (table ccdmask_entries)
           ccdmask_entries ccdmask 4 (ccdmask_table _) ccdmask_built
           ccdmask_names_distinct ccdmask_number_4).
Defined.

Lemma before_SATURATE_registered q :
  q ∈ ["COSMIC"%string] → registered ccdmask q.
Proof.
  intros ->%list_elem_of_singleton. apply ccdmask_registered_COSMIC.
Qed.

Lemma SATURATE_not_registered : ¬ registered ccdmask "SATURATE".
Proof. intros [b Hb]. vm_compute in Hb. discriminate. Qed.

(** [mask] on [ccdmask] with a misspelt second name and an unknown
    third. *)
Lemma mask_first_missing_witness :
  BitMask_mask ccdmask (KStr "COSMIC|SATURATE|FOO")
  = Raise (KeyError (KStr "SATURATE")).
Proof.
  exact (mask_first_missing ccdmask "COSMIC|SATURATE|FOO"
           ["COSMIC"%string] "SATURATE" ["FOO"%string]
           eq_refl before_SATURATE_registered SATURATE_not_registered).
Defined.

Lemma pieces_registered p :
  p ∈ split bar "COSMIC|BAD|COSMIC" → registered ccdmask p.
Proof.
  revert p. apply Forall_forall. repeat constructor; eexists;
    vm_compute; reflexivity.
Qed.

(** [mask] on [ccdmask] with a name written twice. *)
Lemma mask_expression_bits_witness :
  ∃ m, BitMask_mask ccdmask (KStr "COSMIC|BAD|COSMIC") = Ok m ∧ 0 ≤ m ∧
       ∀ j, Z.testbit m j = true ↔
            ∃ p, p ∈ split bar "COSMIC|BAD|COSMIC" ∧
                 BitMask_bitnum ccdmask (KStr p) = Ok j.
Proof.
  exact (mask_expression_bits int_attrs "ccdmask" (table ccdmask_entries)
           ccdmask "COSMIC|BAD|COSMIC" ccdmask_built pieces_registered).
Defined.

(** Decoding the mask of [COSMIC]. *)
Lemma names_of_mask_of_name_witness :
  ∃ k m, BitMask_bitnum ccdmask (KStr "COSMIC") = Ok k ∧
         BitMask_mask ccdmask (KStr "COSMIC") = Ok m ∧
         (k ≠ 3 → BitMask_names ccdmask (Some m) = Some ["COSMIC"%string]) ∧
         (k = 3 → BitMask_names ccdmask (Some m) = Some []).
Proof.
  exact (names_of_mask_of_name int_attrs "ccdmask" (table ccdmask_entries)
           ccdmask_entries ccdmask "COSMIC" (ccdmask_table _) ccdmask_built
           ccdmask_positions_distinct ccdmask_registered_COSMIC eq_refl).
Defined.

Lemma ccdmask_names_without_bar x :
  x ∈ ccdmask_entries → contains bar (x_name x) = false.
Proof.
  revert x. apply Forall_forall. repeat constructor.
Qed.

Lemma bits_of_17_registered k :
  0 ≤ k → Z.testbit 17 k = true → is_Some (_bits ccdmask !! KInt k).
Proof.
  intros Hk Hbit.
  assert (k ∈ set_positions 17) as Hin.
  { apply elem_of_set_positions_testbit; [lia|done]. }
  change (set_positions 17) with [0; 4] in Hin.
  apply elem_of_cons in Hin as [->|Hin]; [eexists; vm_compute; reflexivity|].
  apply list_elem_of_singleton in Hin as ->. eexists. vm_compute. reflexivity.
Qed.

(** Encoding what [names(17)] decodes on [ccdmask]. *)
Lemma mask_of_names_of_mask_witness :
  ∃ ns, BitMask_names ccdmask (Some 17) = Some ns ∧
        BitMask_mask ccdmask (KStr (join "|" ns)) = Ok 17.
Proof.
  refine (mask_of_names_of_mask int_attrs "ccdmask" (table ccdmask_entries)
            ccdmask_entries ccdmask 17 (ccdmask_table _) ccdmask_built
            ccdmask_names_distinct ccdmask_names_without_bar _ _
            bits_of_17_registered); lia.
Defined.

Lemma ccdmask_COSMIC_definition :
  _bits ccdmask !! KStr "COSMIC" = Some (entry_bit cosmic_entry).
Proof. vm_compute. reflexivity. Qed.

(** [str] of the definition of [COSMIC]. *)
Lemma str_of_definition_witness :
  _MaskBit_str (entry_bit cosmic_entry) =
  (ljust 16 "COSMIC" +:+ " bit " +:+ str_int 4 +:+ " mask 0x" +:+
   hex_digit (2 ^ (4 mod 4)) +:+ zeros (Z.to_nat (4 / 4)) +:+
   " - " +:+ "Cosmic ray")%string.
Proof.
  exact (str_of_definition int_attrs "ccdmask" (table ccdmask_entries)
           ccdmask (KStr "COSMIC") (entry_bit cosmic_entry)
           ccdmask_built ccdmask_COSMIC_definition).
Defined.

(** [__getattr__] on [ccdmask] and [COSMIC]. *)
Lemma getattr_is_mask_witness :
  (registered ccdmask "COSMIC" →
   ∃ b, BitMask_getattr ccdmask "COSMIC" = Ok b ∧
        BitMask_getitem ccdmask (KStr "COSMIC") = Ok b ∧
        value b = 2 ^ bitnum b ∧
        BitMask_bitnum ccdmask (KStr "COSMIC") = Ok (bitnum b) ∧
        (contains bar "COSMIC" = false →
         BitMask_mask ccdmask (KStr "COSMIC") = Ok (value b))) ∧
  (¬ registered ccdmask "COSMIC" →
   BitMask_getattr ccdmask "COSMIC" =
     Raise (AttributeError ("Unknown mask bit name " +:+ "COSMIC")%string) ∧
   BitMask_getitem ccdmask (KStr "COSMIC") = Raise (KeyError (KStr "COSMIC"))).
Proof.
  exact (getattr_is_mask int_attrs "ccdmask" (table ccdmask_entries) ccdmask
           "COSMIC" ccdmask_built).
Defined.

Lemma ccdmask_reversed_built :
  BitMask_init int_attrs "ccdmask" (table ccdmask_reversed)
  = Ok (build ccdmask_reversed).
Proof. vm_compute. reflexivity. Qed.

Lemma ccdmask_reversed_permutation : ccdmask_reversed ≡ₚ ccdmask_entries.
Proof. apply reverse_Permutation. Qed.

(** [repr] of [ccdmask] built from the table in reverse order. *)
Lemma repr_order_independent_witness :
  is_Some (BitMask_repr py_repr ccdmask) ∧
  BitMask_repr py_repr (build ccdmask_reversed) = BitMask_repr py_repr ccdmask.
Proof.
  exact (repr_order_independent int_attrs py_repr "ccdmask"
           (table ccdmask_entries) ccdmask_entries ccdmask
           (table ccdmask_reversed) ccdmask_reversed (build ccdmask_reversed)
           (ccdmask_table _) ccdmask_built (ccdmask_table _)
           ccdmask_reversed_built ccdmask_reversed_permutation
           ccdmask_positions_distinct).
Defined.

(** A table with an entry of two elements: the unpacking raises. *)
Example short_entry_raises :
  BitMask_init_raw int_attrs "ccdmask" {[ "ccdmask"%string := short_entry_def ]}
  = Raise (ValueError "not enough values to unpack (expected 3, got 2)").
Proof. vm_compute. reflexivity. Qed.

(** The texts of the test suite. *)
Example ccdmask_str :
  _MaskBit_str <$> _bits ccdmask !! KInt 4
  = Some "COSMIC           bit 4 mask 0x10 - Cosmic ray"%string.
Proof. vm_compute. reflexivity. Qed.

Example format_X_255 : format_X 255 = "FF"%string.
Proof. reflexivity. Qed.
